(** * wikimedia: stream index, article extraction and wikitext cleaning

    A shallow embedding of [src/wikimedia/wikimedia.py] and the properties
    of its three stages: [_extract_index] / [_pairwise] (stream boundaries),
    [_extract_content] (pages of one stream) and [_clean_content] /
    [_parse_and_clean_wikicode] / [_construct_url] (markup to text). *)

From Stdlib Require Import ZArith NArith Lia Ascii String.
From stdpp Require Import base tactics option list sorting gmap.

Local Open Scope Z_scope.

(** ** Python values *)

(** A Python [str] is a sequence of Unicode code points. *)
Abbreviation char := N (only parsing).
Abbreviation str := (list N) (only parsing).

(** String literals of the source, written as Rocq strings. *)
Definition lit (s : string) : str :=
  (fun a => N_of_ascii a) <$> list_ascii_of_string s.
Arguments lit s%_string.

(** [len(s)] *)
Definition len {A} (s : list A) : Z := Z.of_nat (length s).

(** Exceptions that the modelled code can raise.  [DepthExceeded] is not
    one of Python: it ends a walk of the cleaner that re-parses link texts
    more deeply than the bound it was given. *)
Inductive exn :=
| IndexError
| ValueError
| OSError
| AttributeError
| TypeError
| UnicodeEncodeError
| ParserError
| DepthExceeded.

(** The outcome of a call: a value, or a raised exception. *)
Inductive result (A : Type) :=
| Ok (a : A)
| Raise (e : exn).
Arguments Ok {A} a.
Arguments Raise {A} e.

#[global] Instance result_ret : MRet result := fun A a => Ok a.
#[global] Instance result_bind : MBind result := fun A B f m =>
  match m with
  | Ok a => f a
  | Raise e => Raise e
  end.

(** Evaluation of a comprehension [f(x) for x in xs]: left to right, the
    first exception ends it. *)
Fixpoint traverse {A B} (f : A -> result B) (xs : list A) : result (list B) :=
  match xs with
  | [] => Ok []
  | x :: xs' => y ← f x; ys ← traverse f xs'; Ok (y :: ys)
  end.

(** ** StreamIndexBuilder *)

Module Index.

(** [sorted(...)] on integers. *)
Definition sorted (l : list Z) : list Z := merge_sort Z.le l.

(** [itertools.zip_longest(xs, ys)]: the shorter side is padded with [None]. *)
Fixpoint zip_longest {A B} (xs : list A) (ys : list B)
  : list (option A * option B) :=
  match xs with
  | [] => (fun y => (None, Some y)) <$> ys
  | x :: xs' =>
      match ys with
      | [] => (fun x => (Some x, None)) <$> xs
      | y :: ys' => (Some x, Some y) :: zip_longest xs' ys'
      end
  end.

(** [_pairwise(index)]: [ends] is [index] advanced by one element. *)
Definition _pairwise {A} (index : list A) : list (option A * option A) :=
  zip_longest index (tail index).

Section Builder.
(** The builtin [int] on a field of the index file; [None] is its
    [ValueError]. *)
Variable int : str -> option Z.

(** [int(row[0])] for one row of [csv.reader]. *)
Definition first_field (row : list str) : result Z :=
  match row with
  | [] => Raise IndexError
  | field :: _ =>
      match int field with
      | Some z => Ok z
      | None => Raise ValueError
      end
  end.

(** [_extract_index], from the rows that [csv.reader(text_file,
    delimiter=":")] produces for the decompressed index file:
    [sorted({int(row[0]) for row in rows})]. *)
Definition _extract_index (rows : list (list str)) : result (list Z) :=
  offsets ← traverse first_field rows;
  Ok (sorted (elements (list_to_set offsets : gset Z))).

(** The spec's [build_index]: the ranges of [_pairwise] over the index. *)
Definition build_index (rows : list (list str))
  : result (list (option Z * option Z)) :=
  index ← _extract_index rows; Ok (_pairwise index).
End Builder.

(** [int] on a plain run of ASCII decimal digits (the form the index file
    uses); other spellings that Python accepts are not covered by this
    instance. *)
Definition digit_value (c : char) : option Z :=
  if ((48 <=? c) && (c <=? 57))%N then Some (Z.of_N c - 48) else None.

Fixpoint int_digits (acc : Z) (s : str) : option Z :=
  match s with
  | [] => Some acc
  | c :: s' =>
      match digit_value c with
      | Some d => int_digits (10 * acc + d) s'
      | None => None
      end
  end.

Definition int_decimal (s : str) : option Z :=
  match s with
  | [] => None
  | _ => int_digits 0 s
  end.

End Index.

(** ** StreamArticleExtractor *)

(** What a generator did: the values it yielded, in order, and the exception
    that ended it, if one did. *)
Record run (A : Type) := Run { yielded : list A; raised : option exn }.
Arguments Run {A} yielded raised.
Arguments yielded {A} r.
Arguments raised {A} r.

Module Extract.

(** An [xml.etree.ElementTree.Element]: tag, text and child elements. *)
#[local] Set Warnings "-register-all".
Inductive Element :=
| mkElement (tag : str) (text : option str) (children : list Element).

Definition tag (e : Element) : str := let (t, _, _) := e in t.
Definition text (e : Element) : option str := let (_, x, _) := e in x.
Definition children (e : Element) : list Element := let (_, _, c) := e in c.

(** [s.endswith(suffix)] *)
Definition endswith (s suffix : str) : bool :=
  bool_decide (drop (length s - length suffix) s = suffix).

(** [s[:-4]] *)
Definition drop_last4 (s : str) : str := take (length s - 4) s.

Definition has_tag (t : str) (e : Element) : bool := bool_decide (tag e = t).

(** [elem.find("./T")]: the first child whose tag is [T]. *)
Definition find (elem : Element) (t : str) : option Element :=
  head (filter (fun e => has_tag t e = true) (children elem)).

(** [elem.find("./T1/T2")]: the first [T2] child of the [T1] children, in
    document order. *)
Definition find2 (elem : Element) (t1 t2 : str) : option Element :=
  head (e1 ← filter (fun e => has_tag t1 e = true) (children elem);
        filter (fun e => has_tag t2 e = true) (children e1)).

(** [x.text] where [x] is the result of a [find]: on [None] the attribute
    access raises [AttributeError]. *)
Definition text_of (found : option Element) : result (option str) :=
  match found with
  | Some e => Ok (text e)
  | None => Raise AttributeError
  end.

(** The tuple [(id_, title, raw_content)] that the extractor yields. *)
Record RawArticle := mkRaw {
  raw_id : option str;
  raw_title : option str;
  raw_markup : str
}.

(** The body of the loop of [_extract_content] for one parsed element:
    [None] is [continue], [Some] is a [yield].  The calls of [elem.clear()]
    empty only elements whose tag ends in [page], and no [find] of the
    loop selects such an element (it selects tags that end in [ns],
    [redirect], [id], [title], [revision] and [text]); so they are left
    out. *)
Definition page_step (elem : Element) : result (option RawArticle) :=
  if negb (endswith (tag elem) (lit "page")) then Ok None
  else
    let namespace := drop_last4 (tag elem) in
    ns ← text_of (find elem (namespace ++ lit "ns"));
    let redirect := find elem (namespace ++ lit "redirect") in
    if negb (bool_decide (ns = Some (lit "0"))) || bool_decide (redirect <> None)
    then Ok None
    else
      id_ ← text_of (find elem (namespace ++ lit "id"));
      title ← text_of (find elem (namespace ++ lit "title"));
      raw_content ←
        text_of (find2 elem (namespace ++ lit "revision") (namespace ++ lit "text"));
      match raw_content with
      | None => Ok None
      | Some raw => Ok (Some (mkRaw id_ title raw))
      end.

(** The [for _, elem in etree.iterparse(text_stream)] loop over the
    elements of the [end] events, in document order. *)
Fixpoint extract_pages (events : list Element) : run RawArticle :=
  match events with
  | [] => Run [] None
  | elem :: rest =>
      match page_step elem with
      | Raise e => Run [] (Some e)
      | Ok None => extract_pages rest
      | Ok (Some a) =>
          let r := extract_pages rest in Run (a :: yielded r) (raised r)
      end
  end.

Section Stream.
(** The libraries behind [_extract_content]: [BZ2Decompressor().decompress],
    [bytes.decode("utf-8")] and [etree.iterparse], which hands over the
    elements it completed and the [ParseError] that stopped it, if any. *)
Variable decompress : list N -> result (list N).
Variable decode_utf8 : list N -> result str.
Variable iterparse : str -> run Element.

(** [compressed_file.seek(start)] then
    [compressed_file.read(end - start if end else -1)] on the bytes of the
    file: a negative offset is refused by [seek], the size [-1] reads to
    the end of the file and any other negative size is refused by [read]. *)
Definition read_range (file : list N) (start : Z) (end_ : option Z)
  : result (list N) :=
  if start <? 0 then Raise OSError
  else
    let size := match end_ with
                | Some e => if e =? 0 then -1 else e - start
                | None => -1
                end in
    let rest := drop (Z.to_nat start) file in
    if size =? -1 then Ok rest
    else if size <? 0 then Raise ValueError
    else Ok (take (Z.to_nat size) rest).

(** The start of [_extract_content]: the range of the file is read and
    decompressed, enclosed in the root element, decoded and handed to the
    XML parser. *)
Definition parse_stream (file : list N) (start : Z) (end_ : option Z)
  : result (run Element) :=
  compressed_data ← read_range file start end_;
  binary_data ← decompress compressed_data;
  let binary_data := lit "<mediawiki>" ++ binary_data ++ lit "</mediawiki>" in
  text_stream ← decode_utf8 binary_data;
  Ok (iterparse text_stream).

(** The elements that the loop of [_extract_content] is given. *)
Definition stream_elements (file : list N) (start : Z) (end_ : option Z)
  : list Element :=
  match parse_stream file start end_ with
  | Ok parsed => yielded parsed
  | Raise _ => []
  end.

(** [_extract_content(filepath, start, end)], on the bytes of the file. *)
Definition _extract_content (file : list N) (start : Z) (end_ : option Z)
  : run RawArticle :=
  match parse_stream file start end_ with
  | Raise e => Run [] (Some e)
  | Ok parsed =>
      let r := extract_pages (yielded parsed) in
      Run (yielded r)
          (match raised r with
           | Some e => Some e
           | None => raised parsed
           end)
  end.
End Stream.

(** What [ElementTree] guarantees for the elements it builds: a [text] is
    set only from character data, so it is [None] or a non-empty string. *)
Fixpoint parsed_text (e : Element) : bool :=
  match e with
  | mkElement _ t cs =>
      negb (bool_decide (t = Some [])) && forallb parsed_text cs
  end.

(** Sample elements: a page with the given namespace, redirect marker and
    revision text, as [iterparse] builds it. *)
Definition leaf (t : string) (x : option str) : Element := mkElement (lit t) x [].

Definition sample_page (ns : string) (redirect : bool) (content : option str)
  : Element :=
  mkElement (lit "page") None
    ([leaf "title" (Some (lit "Main Page")); leaf "ns" (Some (lit ns));
      leaf "id" (Some (lit "42"))] ++
     (if redirect then [leaf "redirect" None] else []) ++
     [mkElement (lit "revision") None
        [leaf "id" (Some (lit "7")); leaf "text" content]]).

(** A stream that holds the given elements, for examples: stored as it
    is, with a parser that has read the elements. *)
Definition sample_extract (elements : list Element) : run RawArticle :=
  _extract_content Ok Ok (fun _ => Run elements None) [] 0 None.

(** A page element that is outside the main namespace (its [ns] field is
    not ["0"]) or that carries a redirect marker. *)
Definition nonmain_or_redirect (elem : Element) : Prop :=
  let namespace := drop_last4 (tag elem) in
  (exists n, find elem (namespace ++ lit "ns") = Some n /\
             text n <> Some (lit "0")) \/
  find elem (namespace ++ lit "redirect") <> None.

Definition is_page (elem : Element) : Prop :=
  endswith (tag elem) (lit "page") = true.

Definition has_ns (elem : Element) : Prop :=
  find elem (drop_last4 (tag elem) ++ lit "ns") <> None.

End Extract.

(** ** Strings and patterns of the cleaner *)

Module Str.

(** [c.isspace()]: the Unicode whitespace characters. *)
Definition isspace (c : char) : bool :=
  ((9 <=? c) && (c <=? 13) || (28 <=? c) && (c <=? 32) ||
   (c =? 133) || (c =? 160) || (c =? 5760) ||
   (8192 <=? c) && (c <=? 8202) || (c =? 8232) || (c =? 8233) ||
   (c =? 8239) || (c =? 8287) || (c =? 12288))%N.

Definition is_newline (c : char) : bool := (c =? 10)%N.

Fixpoint lstrip (p : char -> bool) (s : str) : str :=
  match s with
  | [] => []
  | c :: s' => if p c then lstrip p s' else s
  end.

Definition rstrip (p : char -> bool) (s : str) : str :=
  reverse (lstrip p (reverse s)).

(** [s.strip()] *)
Definition strip (s : str) : str := rstrip isspace (lstrip isspace s).

(** [s.strip("\n")] *)
Definition strip_newlines (s : str) : str :=
  rstrip is_newline (lstrip is_newline s).

(** ["\n\n\n" in s] *)
Fixpoint has_3_newlines (s : str) : bool :=
  match s with
  | c1 :: ((c2 :: c3 :: _) as s') =>
      is_newline c1 && is_newline c2 && is_newline c3 || has_3_newlines s'
  | _ => false
  end.

(** [s.replace("\n\n\n", "\n\n")]: occurrences from left to right, without
    overlap. *)
Fixpoint replace_3_newlines (s : str) : str :=
  match s with
  | c1 :: ((c2 :: c3 :: s'') as s') =>
      if is_newline c1 && is_newline c2 && is_newline c3
      then 10%N :: 10%N :: replace_3_newlines s''
      else c1 :: replace_3_newlines s'
  | _ => s
  end.

(** [while "\n\n\n" in s: s = s.replace("\n\n\n", "\n\n")]; every round
    shortens [s], so [length s] rounds are enough. *)
Fixpoint collapse_rounds (rounds : nat) (s : str) : str :=
  match rounds with
  | O => s
  | S rounds' =>
      if has_3_newlines s then collapse_rounds rounds' (replace_3_newlines s)
      else s
  end.

Definition collapse (s : str) : str := collapse_rounds (length s) s.

(** ["sep".join(parts)] *)
Fixpoint join (sep : str) (parts : list str) : str :=
  match parts with
  | [] => []
  | [part] => part
  | part :: parts' => part ++ sep ++ join sep parts'
  end.

(** *** The magic-word pattern [__[A-Z]*__] *)

Definition is_upper (c : char) : bool := ((65 <=? c) && (c <=? 90))%N.

(** A match of [__] at the start of [s]: what follows it. *)
Definition match_2_underscores (s : str) : option str :=
  match s with
  | 95%N :: 95%N :: s' => Some s'
  | _ => None
  end.

(** A match of [__[A-Z]*__] at the start of [s]: what follows it.  The
    greedy [[A-Z]*] stops at the first character that is not an uppercase
    letter, where only [__] can continue the match. *)
Definition match_magic (s : str) : option str :=
  s' ← match_2_underscores s;
  match_2_underscores (lstrip is_upper s').

(** [re.sub(re_rm_magic, "", s)]: the matches are found from left to
    right; after a match the search goes on behind it.  [skip] counts the
    characters of the current match that are still to be dropped. *)
Fixpoint sub_magic_from (skip : nat) (s : str) : str :=
  match s with
  | [] => []
  | c :: s' =>
      match skip with
      | S skip' => sub_magic_from skip' s'
      | O =>
          match match_magic s with
          | Some rest => sub_magic_from (length s' - length rest) s'
          | None => c :: sub_magic_from O s'
          end
      end
  end.

Definition sub_magic (s : str) : str := sub_magic_from O s.

(** *** The namespace patterns [^(?:P1|P2|...):] with [re.IGNORECASE] *)

Section Prefix.
(** Whether a subject character matches a character of the pattern under
    [re.IGNORECASE | re.UNICODE]; the Unicode case tables decide it. *)
Variable imatch : char -> char -> bool.

(** The literal text [P] at the start of [s], character by character:
    what follows it. *)
Fixpoint match_literal (p s : str) : option str :=
  match p with
  | [] => Some s
  | pc :: p' =>
      match s with
      | c :: s' => if imatch pc c then match_literal p' s' else None
      | [] => None
      end
  end.

(** One alternative [P] followed by [:] at the start of [s]: what
    follows the colon. *)
Definition match_alternative (p s : str) : option str :=
  rest ← match_literal p s;
  match rest with
  | 58%N :: rest' => Some rest'
  | _ => None
  end.

(** [re.match] of the whole pattern: the alternatives are tried in
    order.  The prefixes are namespace names, taken as literal text. *)
Fixpoint match_prefix (prefixes : list str) (s : str) : option str :=
  match prefixes with
  | [] => None
  | p :: prefixes' =>
      match match_alternative p s with
      | Some rest => Some rest
      | None => match_prefix prefixes' s
      end
  end.

(** [re.sub(pattern, "", s)]: the pattern is anchored, so it can only
    match at the start of [s]. *)
Definition sub_prefix (prefixes : list str) (s : str) : str :=
  match match_prefix prefixes s with
  | Some rest => rest
  | None => s
  end.

End Prefix.

(** The case-insensitive match for the characters of ASCII patterns: the
    two cases of a letter and the characters whose lowercase is that
    letter (dotless and dotted I, long S, the Kelvin sign). *)
Definition lower_ascii (c : char) : char :=
  if is_upper c then (c + 32)%N else c.

Definition imatch_ascii (pc c : char) : bool :=
  let l := lower_ascii pc in
  (lower_ascii c =? l)%N ||
  ((l =? 105) && ((c =? 304) || (c =? 305)))%N ||
  ((l =? 115) && (c =? 383))%N ||
  ((l =? 107) && (c =? 8490))%N.

End Str.

(** ** WikitextCleaner *)

Module Wiki.
Import Str.

(** The nodes of a [mwparserfromhell] tree ([Wikicode] is a list of
    nodes).  [Text], [Heading], [Wikilink] and [Tag] are the classes the
    cleaner tells apart.  A [Tag] lists the parts that [__children__]
    gives: the tag name (unless the tag is written in wiki markup), the
    attributes, the contents (unless self-closing) and the closing tag.
    [Other] stands for the remaining classes ([Template], [Argument],
    [Comment], [ExternalLink], [HTMLEntity]): its parts, and how the class
    renders ([__str__]) and strips ([__strip__]) from the rendering and the
    stripped text of its parts. *)
#[local] Set Warnings "-register-all".
Inductive Node :=
| Text (value : str)
| Heading (title : list Node) (level : nat)
| Wikilink (title : list Node) (text : option (list Node))
| Tag (tag : list Node) (wiki_markup : bool) (attrs : list (list Node))
      (contents : option (list Node)) (closing_tag : option (list Node))
      (render : list str -> str)
| Other (parts : list (list Node)) (render : list str -> str)
        (stripper : list (str * str) -> option str).

Definition Wikicode := list Node.

(** A property of the nodes of an optional part. *)
Definition Forall_option (P : Node -> Prop) (part : option (list Node)) : Prop :=
  match part with
  | Some code => Forall P code
  | None => True
  end.

(** [str(node)] and [str(wikicode)]. *)
Fixpoint str_node (n : Node) : str :=
  let str_code := fun code : list Node => mjoin (str_node <$> code) in
  match n with
  | Text value => value
  | Heading title level =>
      replicate level 61%N ++ str_code title ++ replicate level 61%N
  | Wikilink title None => lit "[[" ++ str_code title ++ lit "]]"
  | Wikilink title (Some text) =>
      lit "[[" ++ str_code title ++ lit "|" ++ str_code text ++ lit "]]"
  | Tag tag wiki_markup attrs contents closing_tag render =>
      render ((if wiki_markup then [] else [str_code tag]) ++
              (str_code <$> attrs) ++
              match contents with Some c => [str_code c] | None => [] end ++
              match closing_tag with Some c => [str_code c] | None => [] end)
  | Other parts render _ => render (str_code <$> parts)
  end.

Definition str_code (code : Wikicode) : str := mjoin (str_node <$> code).

(** The end of [strip_code(normalize=True, collapse=True)]: the stripped
    nodes that are not empty are joined, newlines are stripped from both
    ends and runs of newlines are collapsed. *)
Definition finish_strip (stripped : list str) : str :=
  collapse (strip_newlines (mjoin (filter (fun s => s <> []) stripped))).

Section Strip.
(** [definitions.is_visible] on the name of a tag. *)
Variable is_visible : str -> bool.

(** [node.__strip__(normalize=True, collapse=True)]; [None] when the
    node has no text of its own. *)
Fixpoint strip_node (n : Node) : option str :=
  let strip_code := fun code : list Node =>
    finish_strip (omap strip_node code) in
  match n with
  | Text value => Some value
  | Heading title _ => Some (strip_code title)
  | Wikilink title None => Some (strip_code title)
  | Wikilink _ (Some text) => Some (strip_code text)
  | Tag tag _ _ contents _ _ =>
      match contents with
      | Some c =>
          if bool_decide (str_code c <> []) && is_visible (str_code tag)
          then Some (strip_code c) else None
      | None => None
      end
  | Other parts _ stripper =>
      stripper ((fun c => (str_code c, strip_code c)) <$> parts)
  end.

(** [wikicode.strip_code()] *)
Definition strip_code (code : Wikicode) : str :=
  finish_strip (omap strip_node code).
End Strip.

(** [wikicode.get_sections(flat=True, include_lead=True,
    include_headings=True)]: the lead section, then one section from each
    top-level heading up to the next one. *)
Definition is_heading (n : Node) : bool :=
  match n with
  | Heading _ _ => true
  | _ => false
  end.

Fixpoint split_sections (nodes : Wikicode) : Wikicode * list Wikicode :=
  match nodes with
  | [] => ([], [])
  | n :: rest =>
      let (current, sections) := split_sections rest in
      if is_heading n then ([], (n :: current) :: sections)
      else (n :: current, sections)
  end.

Definition get_sections (nodes : Wikicode) : list Wikicode :=
  let (lead, sections) := split_sections nodes in lead :: sections.

(** *** Iteration over a tree that the loop body changes

    [ifilter(recursive=True)] walks every top-level node of the section
    and, below it, the lists of child nodes in pre-order.  The top-level
    nodes are fixed when the walk starts; a nested list is walked by
    index while the body of the loop may remove the node just visited.
    [section.remove(obj)] looks for the node itself in the section and
    takes it out of the list that holds it; links and tags render to a
    non-empty text, which that search relies on. *)

(** The walk of a nested list: [visit] says whether the node stays
    ([Some], with what it has become) or was removed from the list
    ([None]).  After a removal the list has moved left under the index,
    which passes over the node that followed. *)
Definition walk_live {A} (visit : A -> result (option A))
  : list A -> result (list A) :=
  fix go (l : list A) : result (list A) :=
    match l with
    | [] => Ok []
    | n :: rest =>
        r ← visit n;
        match r with
        | Some n' => rest' ← go rest; Ok (n' :: rest')
        | None =>
            match rest with
            | [] => Ok []
            | passed :: rest' => rest'' ← go rest'; Ok (passed :: rest'')
            end
        end
    end.

(** The walk of the top-level nodes of a section: each one is visited. *)
Definition walk_top {A} (visit : A -> result (option A)) (l : list A)
  : result (list A) :=
  match traverse visit l with
  | Ok visited => Ok (omap id visited)
  | Raise e => Raise e
  end.

(** The same walk over the parts of a node, and over an optional part. *)
Definition walk_parts {A} (walk : list A -> result (list A))
  : list (list A) -> result (list (list A)) := traverse walk.

Definition walk_option {A} (walk : list A -> result (list A))
  (part : option (list A)) : result (option (list A)) :=
  match part with
  | Some code => code' ← walk code; Ok (Some code')
  | None => Ok None
  end.

Section Cleaner.
(** [mwparserfromhell.parse]; [Raise ParserError] when it fails. *)
Variable parse : str -> result Wikicode.
Variable imatch : char -> char -> bool.
Variable is_visible : str -> bool.
(** The alias tables, which the module does not define itself. *)
Variable MEDIA_ALIASES : gmap str (list str).
Variable CAT_ALIASES : gmap str (list str).
Variable language : str.

Definition media_prefixes : list str :=
  [lit "File"; lit "Image"; lit "Media"] ++ default [] (MEDIA_ALIASES !! language).

Definition cat_prefixes : list str :=
  [lit "Category"] ++ default [] (CAT_ALIASES !! language).

(** [rm_wikilink(obj)] and [is_category(obj)], from [obj.title]. *)
Definition rm_wikilink (title : Wikicode) : bool :=
  bool_decide (is_Some (match_prefix imatch media_prefixes (str_code title))).

Definition is_category (title : Wikicode) : bool :=
  bool_decide (is_Some (match_prefix imatch cat_prefixes (str_code title))).

(** [rm_tag(obj)], from [obj.tag]. *)
Definition rm_tag (tag : Wikicode) : bool :=
  bool_decide (str_code tag = lit "ref") || bool_decide (str_code tag = lit "table").

(** The string that [clean_wikilink] assigns to [obj.text]: the stripped
    link with the category prefix substituted away. *)
Definition clean_wikilink_text (title : Wikicode) (text : option Wikicode) : str :=
  let text := default [] (strip_node is_visible (Wikilink title text)) in
  sub_prefix imatch cat_prefixes text.


(** The loop over [section.ifilter_wikilinks(recursive=True)] at one
    node.  [attached] tells whether the node is still part of the
    section: below a removed link [section.remove] finds nothing and its
    [ValueError] is dropped.  A rewritten link is walked with its new
    text; [depth] bounds how often a new text is entered in turn. *)
Fixpoint visit_wikilinks (depth : nat) : bool -> Node -> result (option Node) :=
  fix visit (attached : bool) (n : Node) {struct n} : result (option Node) :=
    match n with
    | Text _ => Ok (Some n)
    | Heading title level =>
        title' ← walk_live (visit attached) title;
        Ok (Some (Heading title' level))
    | Wikilink title text =>
        if rm_wikilink title then
          _ ← walk_live (visit false) title;
          _ ← walk_option (walk_live (visit false)) text;
          Ok (if attached then None else Some n)
        else if is_category title then
          new_text ← parse (clean_wikilink_text title text);
          title' ← walk_live (visit attached) title;
          match depth with
          | O => Raise DepthExceeded
          | S depth' =>
              text' ← walk_live (visit_wikilinks depth' attached) new_text;
              Ok (Some (Wikilink title' (Some text')))
          end
        else
          title' ← walk_live (visit attached) title;
          text' ← walk_option (walk_live (visit attached)) text;
          Ok (Some (Wikilink title' text'))
    | Tag tag wiki_markup attrs contents closing_tag render =>
        tag' ← (if wiki_markup then Ok tag else walk_live (visit attached) tag);
        attrs' ← walk_parts (walk_live (visit attached)) attrs;
        contents' ← walk_option (walk_live (visit attached)) contents;
        closing_tag' ← walk_option (walk_live (visit attached)) closing_tag;
        Ok (Some (Tag tag' wiki_markup attrs' contents' closing_tag' render))
    | Other parts render stripper =>
        parts' ← walk_parts (walk_live (visit attached)) parts;
        Ok (Some (Other parts' render stripper))
    end.

(** The loop over [section.ifilter_tags(matches=rm_tag, recursive=True)]
    at one node of the section; below a removed tag the loop changes
    nothing more. *)
Fixpoint visit_tags (n : Node) : result (option Node) :=
  match n with
  | Text _ => Ok (Some n)
  | Heading title level =>
      title' ← walk_live visit_tags title;
      Ok (Some (Heading title' level))
  | Wikilink title text =>
      title' ← walk_live visit_tags title;
      text' ← walk_option (walk_live visit_tags) text;
      Ok (Some (Wikilink title' text'))
  | Tag tag wiki_markup attrs contents closing_tag render =>
      if rm_tag tag then Ok None
      else
        tag' ← (if wiki_markup then Ok tag else walk_live visit_tags tag);
        attrs' ← walk_parts (walk_live visit_tags) attrs;
        contents' ← walk_option (walk_live visit_tags) contents;
        closing_tag' ← walk_option (walk_live visit_tags) closing_tag;
        Ok (Some (Tag tag' wiki_markup attrs' contents' closing_tag' render))
  | Other parts render stripper =>
      parts' ← walk_parts (walk_live visit_tags) parts;
      Ok (Some (Other parts' render stripper))
  end.

(** [re.sub(re_rm_magic, "", section.strip_code().strip())] *)
Definition section_text (section : Wikicode) : str :=
  sub_magic (strip (strip_code is_visible section)).

(** The body of the loop over the sections. *)
Definition clean_section (depth : nat) (section : Wikicode) : result str :=
  section ← walk_top (visit_wikilinks depth true) section;
  section ← walk_top visit_tags section;
  Ok (section_text section).

(** [_parse_and_clean_wikicode] behind the call of the parser. *)
Definition clean_wikicode (depth : nat) (wikicode : Wikicode) : result str :=
  section_text ← traverse (clean_section depth) (get_sections wikicode);
  Ok (join [10%N; 10%N] section_text).

Definition _parse_and_clean_wikicode (depth : nat) (raw_content : str)
  : result str :=
  wikicode ← parse raw_content;
  clean_wikicode depth wikicode.
End Cleaner.

(** What the parser returns for a text without markup: one [Text] node. *)
Definition parse_plain (s : str) : result Wikicode := Ok [Text s].

Section Kept.
Variable imatch : char -> char -> bool.
Variable MEDIA_ALIASES : gmap str (list str).
Variable CAT_ALIASES : gmap str (list str).
Variable language : str.

(** A node on which the two loops of the cleaner find nothing to do:
    neither the node nor a node below it is a media link, a category link
    or a [ref] or [table] tag. *)
Fixpoint kept (n : Node) : bool :=
  let kept_option := fun part : option (list Node) =>
    match part with
    | Some code => forallb kept code
    | None => true
    end in
  match n with
  | Text _ => true
  | Heading title _ => forallb kept title
  | Wikilink title text =>
      negb (rm_wikilink imatch MEDIA_ALIASES language title) &&
      negb (is_category imatch CAT_ALIASES language title) &&
      forallb kept title && kept_option text
  | Tag tag _ attrs contents closing_tag _ =>
      negb (rm_tag tag) && forallb kept tag && forallb (forallb kept) attrs &&
      kept_option contents && kept_option closing_tag
  | Other parts _ _ => forallb (forallb kept) parts
  end.
End Kept.

End Wiki.

(** ** The canonical URL *)

Module Url.

(** [c.encode("utf-8")] for one character, with [errors="strict"]: a
    surrogate cannot be encoded. *)
Definition utf8_encode_char (c : char) : result (list N) :=
  (if c <? 128 then Ok [c]
   else if c <? 2048 then Ok [192 + c / 64; 128 + c mod 64]
   else if c <? 65536 then
     if (55296 <=? c) && (c <=? 57343) then Raise UnicodeEncodeError
     else Ok [224 + c / 4096; 128 + (c / 64) mod 64; 128 + c mod 64]
   else if c <? 1114112 then
     Ok [240 + c / 262144; 128 + (c / 4096) mod 64; 128 + (c / 64) mod 64;
         128 + c mod 64]
   else Raise UnicodeEncodeError)%N.

Definition utf8_encode (s : str) : result (list N) :=
  chunks ← traverse utf8_encode_char s; Ok (mjoin (chunks : list (list N))).

(** The bytes that [quote] leaves as they are: letters, digits, [_.-~]
    and the default [safe="/"]. *)
Definition is_safe (b : N) : bool :=
  ((65 <=? b) && (b <=? 90) || (97 <=? b) && (b <=? 122) ||
   (48 <=? b) && (b <=? 57) ||
   (b =? 95) || (b =? 46) || (b =? 45) || (b =? 126) || (b =? 47))%N.

Definition hex_digit (n : N) : char := (if n <? 10 then 48 + n else 55 + n)%N.

(** ["%{:02X}".format(b)] *)
Definition quote_byte (b : N) : str :=
  if is_safe b then [b] else [37%N; hex_digit (b / 16); hex_digit (b mod 16)].

Definition quote_from_bytes (bs : list N) : str := b ← bs; quote_byte b.

(** [urllib.parse.quote(string)]; [quote(None)] is a [TypeError]. *)
Definition quote (string : option str) : result str :=
  match string with
  | None => Raise TypeError
  | Some s => bs ← utf8_encode s; Ok (quote_from_bytes bs)
  end.

(** [_construct_url(title, language)] *)
Definition url_prefix (language : str) : str :=
  lit "https://" ++ language ++ lit ".wikisource.org/wiki/".

Definition _construct_url (title : option str) (language : str) : result str :=
  quoted ← quote title; Ok (url_prefix language ++ quoted).

(** The characters that UTF-8 encodes: the Unicode scalar values. *)
Definition scalar_value (c : char) : bool :=
  ((c <? 55296) || (57343 <? c) && (c <? 1114112))%N.

(** Percent-decoding, in which the round trip of the URL is stated: every
    [%XX] with two hexadecimal digits becomes the byte [XX]; the bytes are
    then read as UTF-8. *)
Definition hex_value (c : char) : option N :=
  (if (48 <=? c) && (c <=? 57) then Some (c - 48)
   else if (65 <=? c) && (c <=? 70) then Some (c - 55)
   else if (97 <=? c) && (c <=? 102) then Some (c - 87)
   else None)%N.

Fixpoint percent_decode (s : list N) : list N :=
  match s with
  | [] => []
  | c :: s' =>
      if (c =? 37)%N then
        match s' with
        | h1 :: h2 :: s'' =>
            match hex_value h1, hex_value h2 with
            | Some a, Some b => (16 * a + b)%N :: percent_decode s''
            | _, _ => c :: percent_decode s'
            end
        | _ => c :: percent_decode s'
        end
      else c :: percent_decode s'
  end.

Definition is_continuation (b : N) : bool := ((128 <=? b) && (b <? 192))%N.

(** Strict UTF-8 decoding: overlong forms, surrogates and values above
    U+10FFFF are rejected. *)
Fixpoint utf8_decode (bs : list N) : option str :=
  match bs with
  | [] => Some []
  | b0 :: bs1 =>
      if (b0 <? 128)%N then cons b0 <$> utf8_decode bs1
      else if ((194 <=? b0) && (b0 <? 224))%N then
        match bs1 with
        | b1 :: bs2 =>
            if is_continuation b1
            then cons ((b0 - 192) * 64 + (b1 - 128))%N <$> utf8_decode bs2
            else None
        | _ => None
        end
      else if ((224 <=? b0) && (b0 <? 240))%N then
        match bs1 with
        | b1 :: b2 :: bs3 =>
            let c := ((b0 - 224) * 4096 + (b1 - 128) * 64 + (b2 - 128))%N in
            if is_continuation b1 && is_continuation b2 &&
               (2048 <=? c)%N && negb ((55296 <=? c) && (c <=? 57343))%N
            then cons c <$> utf8_decode bs3
            else None
        | _ => None
        end
      else if ((240 <=? b0) && (b0 <? 245))%N then
        match bs1 with
        | b1 :: b2 :: b3 :: bs4 =>
            let c := ((b0 - 240) * 262144 + (b1 - 128) * 4096 +
                      (b2 - 128) * 64 + (b3 - 128))%N in
            if is_continuation b1 && is_continuation b2 && is_continuation b3 &&
               (65536 <=? c)%N && (c <? 1114112)%N
            then cons c <$> utf8_decode bs4
            else None
        | _ => None
        end
      else None
  end.

Definition unquote (s : str) : option str :=
  match utf8_encode s with
  | Ok bs => utf8_decode (percent_decode bs)
  | Raise _ => None
  end.

(** The final segment of the path of a URL: the part behind its last
    [/]. *)
Fixpoint final_segment (url : str) : str :=
  match url with
  | [] => []
  | c :: url' =>
      if bool_decide (47%N ∈ url') then final_segment url' else
      if (c =? 47)%N then url' else url
  end.

End Url.

(** ** The cleaning step *)

Module Clean.
Import Extract Wiki Url.

(** The record [{"id": ..., "url": ..., "title": ..., "text": ...}]. *)
Record CleanedArticle := mkCleaned {
  id : option str;
  url : str;
  title : option str;
  text : str
}.

Section Content.
Variable parse : str -> result Wikicode.
Variable imatch : char -> char -> bool.
Variable is_visible : str -> bool.
Variable MEDIA_ALIASES : gmap str (list str).
Variable CAT_ALIASES : gmap str (list str).

(** [_clean_content(inputs, language, min_text_length)], a generator of
    at most one pair [(id_, record)]. *)
Definition _clean_content (depth : nat) (inputs : RawArticle)
    (language : str) (min_text_length : Z)
  : run (option str * CleanedArticle) :=
  let '(mkRaw id_ title raw_content) := inputs in
  match _parse_and_clean_wikicode parse imatch is_visible MEDIA_ALIASES
          CAT_ALIASES language depth raw_content with
  | Raise ParserError => Run [] None
  | Raise e => Run [] (Some e)
  | Ok text =>
      if bool_decide (text = []) || (len text <? min_text_length)
      then Run [] None
      else
        match _construct_url title language with
        | Raise e => Run [] (Some e)
        | Ok url => Run [(id_, mkCleaned id_ url title text)] None
        end
  end.
End Content.

End Clean.

(** * Properties *)

(** ** StreamIndexBuilder *)

(** Unfolds the exception plumbing of [result]. *)
Ltac unfold_result := unfold mbind, result_bind, mret, result_ret in *.

Section IndexFacts.
Import Index.

Lemma traverse_Ok {A B} (f : A -> result B) xs ys :
  traverse f xs = Ok ys -> Forall2 (fun x y => f x = Ok y) xs ys.
Proof.
  revert ys. induction xs as [|x xs IH]; intros ys H; simpl in H.
  - injection H as <-. constructor.
  - destruct (f x) as [y|e] eqn:Hx; [|discriminate]. simpl in H.
    destruct (traverse f xs) as [ys'|e] eqn:Hxs; [|discriminate]. simpl in H.
    injection H as <-. constructor; auto.
Qed.

Lemma traverse_elem_of {A B} (f : A -> result B) xs ys y :
  traverse f xs = Ok ys -> y ∈ ys <-> exists x, x ∈ xs /\ f x = Ok y.
Proof.
  intros H%traverse_Ok. induction H as [|x y' xs ys Hx _ IH].
  - split; [intros []%elem_of_nil | intros (x & []%elem_of_nil & _)].
  - rewrite elem_of_cons, IH. split.
    + intros [->|(x' & Hin & Hf)]; [exists x | exists x']; rewrite elem_of_cons; auto.
    + intros (x' & [->|Hin]%elem_of_cons & Hf); [left; congruence | right; eauto].
Qed.

(** Sorting a duplicate-free list by [<=] sorts it by [<]. *)
Lemma StronglySorted_le_lt (l : list Z) :
  NoDup l -> StronglySorted Z.le l -> StronglySorted Z.lt l.
Proof.
  intros Hnd Hs. induction Hs as [|x l Hs IH Hall]; [constructor|].
  apply NoDup_cons in Hnd as [Hx Hnd]. constructor; [auto|].
  rewrite Forall_forall in Hall |- *. intros y Hy.
  specialize (Hall y Hy). assert (x <> y) by (intros ->; auto). lia.
Qed.

Lemma sorted_set_spec (offsets : list Z) :
  let index := sorted (elements (list_to_set offsets : gset Z)) in
  StronglySorted Z.lt index /\ forall z, z ∈ index <-> z ∈ offsets.
Proof.
  simpl. unfold sorted. split.
  - apply StronglySorted_le_lt.
    + rewrite merge_sort_Permutation. apply NoDup_elements.
    + apply StronglySorted_merge_sort; [intros x y z; lia | intros x y; lia].
  - intros z. rewrite merge_sort_Permutation, elem_of_elements.
    apply elem_of_list_to_set.
Qed.

Lemma pairwise_nil {A} : _pairwise ([] : list A) = [].
Proof. reflexivity. Qed.

Lemma pairwise_one {A} (x : A) : _pairwise [x] = [(Some x, None)].
Proof. reflexivity. Qed.

Lemma pairwise_cons {A} (x y : A) l :
  _pairwise (x :: y :: l) = (Some x, Some y) :: _pairwise (y :: l).
Proof. reflexivity. Qed.

Lemma pairwise_starts {A} (index : list A) :
  fst <$> _pairwise index = Some <$> index.
Proof.
  induction index as [|x [|y l] IH]; [reflexivity..|].
  rewrite pairwise_cons. simpl fmap. f_equal. apply IH.
Qed.

Lemma pairwise_contiguous {A} (index : list A) i r r' :
  _pairwise index !! i = Some r -> _pairwise index !! S i = Some r' ->
  r.2 = r'.1.
Proof.
  revert i. induction index as [|x [|y l] IH]; intros i Hr Hr'.
  - discriminate.
  - destruct i; discriminate.
  - rewrite pairwise_cons in Hr, Hr'. destruct i as [|i].
    + injection Hr as <-. simpl in Hr'. destruct l; injection Hr' as <-; reflexivity.
    + apply (IH i); assumption.
Qed.

Lemma pairwise_last {A} (index : list A) r :
  last (_pairwise index) = Some r -> r.2 = None.
Proof.
  induction index as [|x [|y l] IH]; intros H.
  - discriminate.
  - injection H as <-. reflexivity.
  - rewrite pairwise_cons in H. apply IH. rewrite <- H.
    destruct l; reflexivity.
Qed.
End IndexFacts.

(** C1. For every index file whose offsets parse, [build_index] returns
    ranges whose starts are the distinct offsets in strictly increasing
    order, in which every range ends where the next one starts and the
    last range has no end; the offsets 5, 5, 20 give [(5, 20), (20, None)]. *)
Theorem build_index_ranges :
  (forall int rows ranges,
     Index.build_index int rows = Ok ranges ->
     exists starts,
       fst <$> ranges = Some <$> starts /\
       StronglySorted Z.lt starts /\
       (forall z, z ∈ starts <->
                  exists row, row ∈ rows /\ Index.first_field int row = Ok z) /\
       (forall i r r', ranges !! i = Some r -> ranges !! S i = Some r' ->
                       r.2 = r'.1) /\
       (forall r, last ranges = Some r -> r.2 = None)) /\
  Index.build_index Index.int_decimal [[lit "5"]; [lit "5"]; [lit "20"]]
  = Ok [(Some 5, Some 20); (Some 20, None)].
Proof.
  split; [|vm_compute; reflexivity].
  intros int rows ranges H. unfold Index.build_index, Index._extract_index in H.
  destruct (traverse (Index.first_field int) rows) as [offsets|e] eqn:Hoff;
    [|discriminate].
  simpl in H. injection H as <-.
  destruct (sorted_set_spec offsets) as [Hsorted Hmem].
  eexists. split; [apply pairwise_starts|].
  split; [exact Hsorted|]. split; [|split].
  - intros z. rewrite Hmem. apply traverse_elem_of. exact Hoff.
  - apply pairwise_contiguous.
  - apply pairwise_last.
Qed.

Lemma build_index_ranges_witness :
  exists starts,
    fst <$> [(Some 5, Some 20); (Some 20, None)] = Some <$> starts /\
    StronglySorted Z.lt starts.
Proof.
  destruct (proj1 build_index_ranges Index.int_decimal
              [[lit "5"; lit "1"; lit "Title"]; [lit "5"]; [lit "20"]]
              [(Some 5, Some 20); (Some 20, None)]) as (starts & H1 & H2 & _).
  - vm_compute. reflexivity.
  - exists starts. split; assumption.
Defined.

(** ** StreamArticleExtractor *)

Section ExtractFacts.
Import Extract.

Lemma parsed_text_children e c :
  parsed_text e = true -> c ∈ children e -> parsed_text c = true.
Proof.
  destruct e as [t x cs]. simpl. intros [_ H]%andb_true_iff Hc.
  rewrite forallb_forall in H. apply H, list_elem_of_In, Hc.
Qed.

Lemma parsed_text_nonempty e : parsed_text e = true -> text e <> Some [].
Proof.
  destruct e as [t x cs]. simpl. intros [H _]%andb_true_iff.
  apply negb_true_iff, bool_decide_eq_false in H. exact H.
Qed.

Lemma find_elem_of elem t e : find elem t = Some e -> e ∈ children elem.
Proof.
  unfold find. intros H%head_Some_elem_of.
  apply list_elem_of_filter in H as [_ H]. exact H.
Qed.

Lemma find2_grandchild elem t1 t2 e :
  find2 elem t1 t2 = Some e ->
  exists e1, e1 ∈ children elem /\ e ∈ children e1.
Proof.
  unfold find2. intros H%head_Some_elem_of.
  apply list_elem_of_bind in H as (e1 & He1 & He).
  apply list_elem_of_filter in He as [_ He].
  apply list_elem_of_filter in He1 as [_ He1]. eauto.
Qed.

Lemma text_of_Ok found x :
  text_of found = Ok x -> exists e, found = Some e /\ text e = x.
Proof. destruct found as [e|]; simpl; [|discriminate]. intros [= <-]. eauto. Qed.

(** What a yield of the loop body says about the element. *)
Lemma page_step_yield elem a :
  page_step elem = Ok (Some a) ->
  let namespace := drop_last4 (tag elem) in
  is_page elem /\
  (exists n, find elem (namespace ++ lit "ns") = Some n /\
             text n = Some (lit "0")) /\
  find elem (namespace ++ lit "redirect") = None /\
  exists e, find2 elem (namespace ++ lit "revision") (namespace ++ lit "text")
            = Some e /\ text e = Some (raw_markup a).
Proof.
  unfold page_step, is_page. unfold_result. simpl.
  destruct (endswith (tag elem) (lit "page")); simpl; [|discriminate].
  destruct (text_of (find elem (_ ++ lit "ns"))) as [ns|] eqn:Hns;
    [|discriminate].
  destruct (bool_decide (ns = Some (lit "0"))) eqn:Hz; simpl; [|discriminate].
  destruct (bool_decide (find elem _ <> None)) eqn:Hr; simpl; [discriminate|].
  destruct (text_of (find elem (_ ++ lit "id"))) as [id_|]; [|discriminate].
  destruct (text_of (find elem (_ ++ lit "title"))) as [title|]; [|discriminate].
  destruct (text_of (find2 elem _ _)) as [[raw|]|] eqn:Hraw; try discriminate.
  intros [= <-]. simpl.
  apply bool_decide_eq_true in Hz. apply bool_decide_eq_false in Hr.
  apply text_of_Ok in Hns as (n & Hn & Hnt).
  apply text_of_Ok in Hraw as (e & He & Het).
  split; [reflexivity|]. split; [exists n; split; congruence|].
  split; [|eauto].
  destruct (find elem (drop_last4 (tag elem) ++ lit "redirect")); [|reflexivity].
  exfalso. apply Hr. discriminate.
Qed.

Lemma extract_pages_yielded events a :
  a ∈ yielded (extract_pages events) ->
  exists elem, elem ∈ events /\ page_step elem = Ok (Some a).
Proof.
  induction events as [|elem rest IH]; simpl.
  - intros []%elem_of_nil.
  - destruct (page_step elem) as [[a'|]|e] eqn:Hstep; simpl.
    + intros [->|Hin]%elem_of_cons.
      * exists elem. split; [left|assumption].
      * destruct (IH Hin) as (el & Hel & Hs). exists el. split; [right|]; assumption.
    + intros Hin. destruct (IH Hin) as (el & Hel & Hs).
      exists el. split; [right|]; assumption.
    + intros []%elem_of_nil.
Qed.

(** A page outside the main namespace, or a redirect, is never yielded:
    the loop continues, or the missing [ns] field raises. *)
Lemma page_step_skipped elem :
  is_page elem -> nonmain_or_redirect elem ->
  (has_ns elem -> page_step elem = Ok None) /\
  (~ has_ns elem -> page_step elem = Raise AttributeError).
Proof.
  unfold is_page, nonmain_or_redirect, has_ns, page_step. unfold_result. simpl.
  intros -> Hskip. simpl.
  destruct (find elem (drop_last4 (tag elem) ++ lit "ns")) as [n|] eqn:Hn;
    simpl; (split; intros H); try reflexivity; try (exfalso; apply H; congruence).
  destruct Hskip as [(n' & [= <-] & Hne)|Hred].
  - rewrite bool_decide_eq_false_2 by exact Hne. reflexivity.
  - rewrite (bool_decide_eq_true_2 _ Hred). rewrite orb_true_r. reflexivity.
Qed.

Lemma page_step_not_page elem : ~ is_page elem -> page_step elem = Ok None.
Proof.
  unfold is_page, page_step. intros H%not_true_is_false. rewrite H. reflexivity.
Qed.
End ExtractFacts.

Lemma extract_content_yielded decompress decode_utf8 iterparse file start end_ :
  yielded (Extract._extract_content decompress decode_utf8 iterparse file start end_)
  = yielded (Extract.extract_pages
               (Extract.stream_elements decompress decode_utf8 iterparse file
                  start end_)).
Proof.
  unfold Extract._extract_content, Extract.stream_elements.
  destruct (Extract.parse_stream _ _ _ _ _ _); reflexivity.
Qed.

(** C4. Every record that the extractor yields has a non-empty
    [raw_markup]: a page whose revision text is absent is skipped, and the
    XML parser never sets an empty text. *)
Theorem extract_raw_markup_nonempty decompress decode_utf8 iterparse
    (file : list N) (start : Z) (end_ : option Z) :
  Forall (fun e => Extract.parsed_text e = true)
    (Extract.stream_elements decompress decode_utf8 iterparse file start end_) ->
  forall a,
    a ∈ yielded (Extract._extract_content decompress decode_utf8 iterparse
                   file start end_) ->
    Extract.raw_markup a <> [].
Proof.
  intros Hwf a Ha Hempty. rewrite extract_content_yielded in Ha.
  apply extract_pages_yielded in Ha as (elem & Hin & Hstep).
  apply page_step_yield in Hstep as (_ & _ & _ & e & Hfind & Htext).
  apply find2_grandchild in Hfind as (e1 & He1 & He).
  rewrite Forall_forall in Hwf. specialize (Hwf elem Hin).
  apply (parsed_text_nonempty e).
  - eapply parsed_text_children; [|exact He].
    eapply parsed_text_children; [exact Hwf|exact He1].
  - rewrite Htext, Hempty. reflexivity.
Qed.

Lemma extract_raw_markup_nonempty_witness :
  Extract.raw_markup
    (Extract.mkRaw (Some (lit "42")) (Some (lit "Main Page")) (lit "Hello")) <> [].
Proof.
  apply (extract_raw_markup_nonempty Ok Ok
           (fun _ => Run [Extract.sample_page "0" false (Some (lit "Hello"));
                          Extract.sample_page "0" false None] None) [] 0 None).
  - repeat constructor.
  - vm_compute. left.
Defined.

Lemma extract_pages_skipped (events : list Extract.Element) :
  (forall elem, elem ∈ events -> Extract.is_page elem ->
                Extract.nonmain_or_redirect elem) ->
  yielded (Extract.extract_pages events) = [] /\
  ((forall elem, elem ∈ events -> Extract.is_page elem -> Extract.has_ns elem) ->
   Extract.extract_pages events = Run [] None).
Proof.
  induction events as [|elem rest IH]; intros Hskip; [split; reflexivity|].
  destruct IH as [IHy IHr].
  { intros el Hel. apply Hskip. right. exact Hel. }
  assert (Hcases : Extract.page_step elem = Ok None \/
                   (exists e, Extract.page_step elem = Raise e) /\
                   Extract.is_page elem /\ ~ Extract.has_ns elem).
  { destruct (decide (Extract.is_page elem)) as [Hp|Hp];
      [|left; apply page_step_not_page; exact Hp].
    destruct (page_step_skipped elem Hp (Hskip elem (list_elem_of_here _ _) Hp))
      as [Hnone Hraise].
    destruct (decide (Extract.has_ns elem)) as [Hns|Hns]; [left; auto|].
    right. eauto. }
  simpl. destruct Hcases as [->|[(e & ->) [Hp Hns]]].
  - split; [exact IHy|]. intros Hall. apply IHr.
    intros el Hel. apply Hall. right. exact Hel.
  - split; [reflexivity|]. intros Hall. exfalso. apply Hns.
    apply Hall; [left|exact Hp].
Qed.

(** C6. A stream all of whose page elements are outside the main namespace
    or are redirects yields no record; when every page has its [ns] field,
    the loop over the pages raises nothing either. *)
Theorem extract_only_skipped_pages decompress decode_utf8 iterparse
    (file : list N) (start : Z) (end_ : option Z) :
  let elements :=
    Extract.stream_elements decompress decode_utf8 iterparse file start end_ in
  (forall elem, elem ∈ elements -> Extract.is_page elem ->
                Extract.nonmain_or_redirect elem) ->
  yielded (Extract._extract_content decompress decode_utf8 iterparse
             file start end_) = [] /\
  ((forall elem, elem ∈ elements -> Extract.is_page elem -> Extract.has_ns elem) ->
   Extract.extract_pages elements = Run [] None).
Proof.
  intros elements Hskip. rewrite extract_content_yielded.
  apply extract_pages_skipped, Hskip.
Qed.

Lemma extract_only_skipped_pages_witness :
  yielded (Extract.sample_extract
             [Extract.sample_page "0" true (Some (lit "#REDIRECT [[Other]]"));
              Extract.sample_page "1" false (Some (lit "Talk"))]) = [].
Proof.
  apply extract_only_skipped_pages.
  intros elem Hin _.
  apply elem_of_cons in Hin as [->|Hin];
    [|apply elem_of_cons in Hin as [->|[]%elem_of_nil]].
  - right. vm_compute. discriminate.
  - left. eexists. split; [vm_compute; reflexivity|]. vm_compute. discriminate.
Defined.

(** ** Magic words *)

Section MagicFacts.
Import Str.






Lemma sub_magic_from_no_match c s :
  match_magic (c :: s) = None ->
  sub_magic_from O (c :: s) = c :: sub_magic_from O s.
Proof. intros H. cbn [sub_magic_from]. rewrite H. reflexivity. Qed.


End MagicFacts.



(** ** The canonical URL *)

(** Decides the comparisons of code points that occur in a goal. *)
Ltac N_cases :=
  repeat match goal with
  | |- context [(?a <=? ?b)%N] => destruct (N.leb_spec a b)
  | |- context [(?a <? ?b)%N] => destruct (N.ltb_spec a b)
  | |- context [(?a =? ?b)%N] => destruct (N.eqb_spec a b)
  end; simpl; try reflexivity; try discriminate; try lia.

Section UrlFacts.
Import Url.

Lemma hex_value_digit h : (h < 16)%N -> hex_value (hex_digit h) = Some h.
Proof.
  intros Hh. unfold hex_value, hex_digit.
  destruct (N.ltb_spec h 10); N_cases; f_equal; lia.
Qed.

Lemma is_safe_bound b : is_safe b = true -> (b < 128)%N /\ b <> 37%N.
Proof. unfold is_safe. N_cases. Qed.

Lemma percent_decode_quote bs :
  Forall (fun b => (b < 256)%N) bs ->
  percent_decode (quote_from_bytes bs) = bs.
Proof.
  induction 1 as [|b bs Hb _ IH]; [reflexivity|].
  unfold quote_from_bytes in *. cbn [mbind list_bind]. unfold quote_byte at 1.
  destruct (is_safe b) eqn:Hs.
  - apply is_safe_bound in Hs as [_ Hne]. simpl.
    destruct (N.eqb_spec b 37); [contradiction|]. f_equal. exact IH.
  - simpl. rewrite !hex_value_digit.
    + f_equal; [|exact IH]. pose proof (N.div_mod b 16). lia.
    + apply N.mod_lt. discriminate.
    + apply N.Div0.div_lt_upper_bound. lia.
Qed.

Lemma quote_from_bytes_ascii bs :
  Forall (fun b => (b < 256)%N) bs ->
  Forall (fun c => (c < 128)%N) (quote_from_bytes bs).
Proof.
  induction 1 as [|b bs Hb _ IH]; [constructor|].
  unfold quote_from_bytes in *. cbn [mbind list_bind]. apply Forall_app. split; [|exact IH].
  unfold quote_byte. destruct (is_safe b) eqn:Hs.
  - apply is_safe_bound in Hs as [Hlt _]. repeat constructor. exact Hlt.
  - assert (b / 16 < 16)%N by (apply N.Div0.div_lt_upper_bound; lia).
    assert (b mod 16 < 16)%N by (apply N.mod_lt; discriminate).
    repeat constructor; unfold hex_digit; N_cases.
Qed.

Lemma utf8_encode_cons c s :
  utf8_encode (c :: s) =
  match utf8_encode_char c with
  | Ok bs =>
      match utf8_encode s with
      | Ok rest => Ok (bs ++ rest)
      | Raise e => Raise e
      end
  | Raise e => Raise e
  end.
Proof.
  unfold utf8_encode. simpl. unfold_result.
  destruct (utf8_encode_char c); [|reflexivity].
  destruct (traverse utf8_encode_char s); reflexivity.
Qed.

Lemma utf8_encode_char_ascii c : (c < 128)%N -> utf8_encode_char c = Ok [c].
Proof. intros H. unfold utf8_encode_char. destruct (N.ltb_spec c 128); [reflexivity|lia]. Qed.

Lemma utf8_encode_ascii s :
  Forall (fun c => (c < 128)%N) s -> utf8_encode s = Ok s.
Proof.
  induction 1 as [|c s Hc _ IH]; [reflexivity|].
  rewrite utf8_encode_cons, utf8_encode_char_ascii, IH by exact Hc. reflexivity.
Qed.

Lemma utf8_encode_char_bytes c bs :
  utf8_encode_char c = Ok bs -> Forall (fun b => (b < 256)%N) bs.
Proof.
  unfold utf8_encode_char.
  destruct (N.ltb_spec c 128); [intros [= <-]; repeat constructor; lia|].
  destruct (N.ltb_spec c 2048).
  { intros [= <-]. repeat constructor.
    - assert (c / 64 < 32)%N by (apply N.Div0.div_lt_upper_bound; lia). lia.
    - assert (c mod 64 < 64)%N by (apply N.mod_lt; discriminate). lia. }
  assert (Hm : forall x, (x mod 64 < 64)%N) by (intros; apply N.mod_lt; discriminate).
  destruct (N.ltb_spec c 65536).
  { destruct ((55296 <=? c)%N && (c <=? 57343)%N); [discriminate|].
    intros [= <-]. repeat constructor.
    - assert (c / 4096 < 16)%N by (apply N.Div0.div_lt_upper_bound; lia). lia.
    - specialize (Hm (c / 64)%N). lia.
    - specialize (Hm c). lia. }
  destruct (N.ltb_spec c 1114112); [|discriminate].
  intros [= <-]. repeat constructor.
  - assert (c / 262144 < 5)%N by (apply N.Div0.div_lt_upper_bound; lia). lia.
  - specialize (Hm (c / 4096)%N). lia.
  - specialize (Hm (c / 64)%N). lia.
  - specialize (Hm c). lia.
Qed.
(** Rewrites a test that arithmetic decides. *)
Ltac N_test_true := 
  repeat match goal with
  | |- context [(?a <=? ?b)%N] =>
      first [ rewrite (proj2 (N.leb_le a b)) by lia
            | rewrite (proj2 (N.leb_gt a b)) by lia ]
  | |- context [(?a <? ?b)%N] =>
      first [ rewrite (proj2 (N.ltb_lt a b)) by lia
            | rewrite (proj2 (N.ltb_ge a b)) by lia ]
  end.

Lemma utf8_decode_encode_char c bs rest :
  utf8_encode_char c = Ok bs ->
  utf8_decode (bs ++ rest) = cons c <$> utf8_decode rest.
Proof.
  unfold utf8_encode_char.
  assert (Hm : forall x, (x mod 64 < 64)%N) by (intros; apply N.mod_lt; discriminate).
  assert (Hd : forall x, (x = 64 * (x / 64) + x mod 64)%N)
    by (intros; apply N.div_mod; discriminate).
  destruct (N.ltb_spec c 128).
  { intros [= <-]. cbn [app utf8_decode]. N_test_true. reflexivity. }
  destruct (N.ltb_spec c 2048).
  { intros [= <-]. pose proof (Hm c). pose proof (Hd c).
    set (q := (c / 64)%N) in *. set (r := (c mod 64)%N) in *. clearbody q r.
    cbn [app utf8_decode]. unfold is_continuation. N_test_true. cbn [andb].
    f_equal. f_equal. lia. }
  destruct (N.ltb_spec c 65536).
  { destruct (N.leb_spec 55296 c); [destruct (N.leb_spec c 57343)|];
      cbn [andb]; [discriminate|..]; intros [= <-];
      replace (c / 4096)%N with (c / 64 / 64)%N
        by (rewrite N.Div0.div_div; reflexivity);
      pose proof (Hm c); pose proof (Hd c);
      pose proof (Hm (c / 64)%N); pose proof (Hd (c / 64)%N);
      set (q1 := (c / 64)%N) in *; set (r0 := (c mod 64)%N) in *;
      set (q2 := (q1 / 64)%N) in *; set (r1 := (q1 mod 64)%N) in *;
      clearbody q2 r1 r0; clearbody q1;
      cbn [app utf8_decode]; unfold is_continuation; N_test_true; cbn [andb negb];
      f_equal; f_equal; lia. }
  destruct (N.ltb_spec c 1114112); [|discriminate].
  intros [= <-].
  replace (c / 262144)%N with (c / 64 / 64 / 64)%N
    by (rewrite !N.Div0.div_div; reflexivity).
  replace (c / 4096)%N with (c / 64 / 64)%N
    by (rewrite N.Div0.div_div; reflexivity).
  pose proof (Hm c). pose proof (Hd c).
  pose proof (Hm (c / 64)%N). pose proof (Hd (c / 64)%N).
  pose proof (Hm (c / 64 / 64)%N). pose proof (Hd (c / 64 / 64)%N).
  set (q1 := (c / 64)%N) in *. set (r0 := (c mod 64)%N) in *.
  set (q2 := (q1 / 64)%N) in *. set (r1 := (q1 mod 64)%N) in *.
  set (q3 := (q2 / 64)%N) in *. set (r2 := (q2 mod 64)%N) in *.
  clearbody q3 r2 r1 r0. clearbody q2. clearbody q1.
  cbn [app utf8_decode]. unfold is_continuation. N_test_true. cbn [andb negb].
  f_equal. f_equal. lia.
Qed.

Lemma utf8_decode_encode s bs :
  utf8_encode s = Ok bs -> utf8_decode bs = Some s.
Proof.
  revert bs. induction s as [|c s IH]; intros bs.
  - intros [= <-]. reflexivity.
  - rewrite utf8_encode_cons.
    destruct (utf8_encode_char c) as [chunk|] eqn:Hc; [|discriminate].
    destruct (utf8_encode s) as [rest|]; [|discriminate].
    intros [= <-]. rewrite (utf8_decode_encode_char c chunk rest Hc).
    rewrite (IH rest eq_refl). reflexivity.
Qed.

Lemma utf8_encode_bytes s bs :
  utf8_encode s = Ok bs -> Forall (fun b => (b < 256)%N) bs.
Proof.
  revert bs. induction s as [|c s IH]; intros bs.
  - intros [= <-]. constructor.
  - rewrite utf8_encode_cons.
    destruct (utf8_encode_char c) as [chunk|] eqn:Hc; [|discriminate].
    destruct (utf8_encode s) as [rest|]; [|discriminate].
    intros [= <-]. apply Forall_app. split; [|apply IH; reflexivity].
    eapply utf8_encode_char_bytes, Hc.
Qed.

(** Percent-decoding a quoted string gives the string back. *)
Lemma unquote_quote s quoted :
  quote (Some s) = Ok quoted -> unquote quoted = Some s.
Proof.
  unfold quote, unquote. unfold_result.
  destruct (utf8_encode s) as [bs|] eqn:Hbs; [|discriminate].
  intros [= <-]. pose proof (utf8_encode_bytes s bs Hbs) as Hbytes.
  rewrite utf8_encode_ascii by (apply quote_from_bytes_ascii, Hbytes).
  rewrite percent_decode_quote by exact Hbytes.
  apply utf8_decode_encode, Hbs.
Qed.
End UrlFacts.

(** Hides quotients and remainders from [lia]. *)
Ltac N_hide_div :=
  repeat match goal with
  | |- context [N.div ?a ?b] =>
      let q := fresh "q" in set (q := N.div a b) in *; clearbody q
  | |- context [N.modulo ?a ?b] =>
      let r := fresh "r" in set (r := N.modulo a b) in *; clearbody r
  | H : context [N.div ?a ?b] |- _ =>
      let q := fresh "q" in set (q := N.div a b) in *; clearbody q
  | H : context [N.modulo ?a ?b] |- _ =>
      let r := fresh "r" in set (r := N.modulo a b) in *; clearbody r
  end.

Section UrlSegments.
Import Url.

Lemma final_segment_after_slash a q :
  47%N ∉ q -> final_segment (a ++ 47%N :: q) = q.
Proof.
  intros Hq. induction a as [|x a IH]; simpl.
  - rewrite bool_decide_eq_false_2 by exact Hq. reflexivity.
  - rewrite bool_decide_eq_true_2; [exact IH|].
    apply elem_of_app. right. left.
Qed.

Lemma utf8_encode_char_no_slash c bs :
  c <> 47%N -> utf8_encode_char c = Ok bs -> 47%N ∉ bs.
Proof.
  intros Hc. unfold utf8_encode_char.
  repeat match goal with
  | |- context [(?a <? ?b)%N] => destruct (N.ltb_spec a b)
  | |- context [(?a <=? ?b)%N && _] => destruct (a <=? b)%N, (c <=? 57343)%N; cbn [andb]
  end; try discriminate; intros [= <-] Hin; N_hide_div;
    repeat (apply elem_of_cons in Hin as [Hin|Hin]; [lia|]);
    apply elem_of_nil in Hin; exact Hin.
Qed.

Lemma utf8_encode_no_slash s bs :
  47%N ∉ s -> utf8_encode s = Ok bs -> 47%N ∉ bs.
Proof.
  revert bs. induction s as [|c s IH]; intros bs Hs.
  - intros [= <-]. exact Hs.
  - apply not_elem_of_cons in Hs as [Hc Hs]. rewrite utf8_encode_cons.
    destruct (utf8_encode_char c) as [chunk|] eqn:Hchunk; [|discriminate].
    destruct (utf8_encode s) as [rest|]; [|discriminate].
    intros [= <-]. rewrite elem_of_app. intros [Hin|Hin].
    + eapply utf8_encode_char_no_slash; [|exact Hchunk|exact Hin]. congruence.
    + exact (IH rest Hs eq_refl Hin).
Qed.

Lemma quote_from_bytes_no_slash bs :
  Forall (fun b => (b < 256)%N) bs -> 47%N ∉ bs -> 47%N ∉ quote_from_bytes bs.
Proof.
  induction 1 as [|b bs Hb _ IH]; intros Hbs; [exact Hbs|].
  apply not_elem_of_cons in Hbs as [Hne Hbs].
  unfold quote_from_bytes in *. cbn [mbind list_bind].
  rewrite elem_of_app. intros [Hin|Hin]; [|exact (IH Hbs Hin)].
  unfold quote_byte in Hin. destruct (is_safe b).
  - apply list_elem_of_singleton in Hin. congruence.
  - assert (b / 16 < 16)%N by (apply N.Div0.div_lt_upper_bound; lia).
    assert (b mod 16 < 16)%N by (apply N.mod_lt; discriminate).
    set (q := (b / 16)%N) in *. set (r := (b mod 16)%N) in *. clearbody q r.
    unfold hex_digit in Hin.
    repeat (apply elem_of_cons in Hin as [Hin|Hin];
            [revert Hin; N_cases|]).
    apply elem_of_nil in Hin. exact Hin.
Qed.
End UrlSegments.

(** C7, as the code has it: percent-decoding the part of the URL behind
    [https://<language>.wikisource.org/wiki/] gives the title back; that
    part is the final path segment of the URL when the title has no [/]. *)
Theorem construct_url_roundtrip (title language url : list N) :
  Url._construct_url (Some title) language = Ok url ->
  Url.unquote (drop (length (Url.url_prefix language)) url) = Some title /\
  (47%N ∉ title -> Url.unquote (Url.final_segment url) = Some title).
Proof.
  unfold Url._construct_url. unfold_result.
  destruct (Url.quote (Some title)) as [quoted|] eqn:Hq; [|discriminate].
  intros H. assert (url = Url.url_prefix language ++ quoted) as -> by congruence.
  clear H. rewrite drop_app_length. split; [apply unquote_quote, Hq|].
  intros Hslash.
  replace (Url.url_prefix language ++ quoted)
    with ((lit "https://" ++ language ++ lit ".wikisource.org/wiki") ++ 47%N :: quoted)
    by (unfold Url.url_prefix; rewrite <- !app_assoc; reflexivity).
  rewrite final_segment_after_slash; [apply unquote_quote, Hq|].
  revert Hq. unfold Url.quote. unfold_result.
  destruct (Url.utf8_encode title) as [bs|] eqn:Hbs; [|discriminate].
  intros [= <-]. apply quote_from_bytes_no_slash.
  - eapply utf8_encode_bytes, Hbs.
  - eapply utf8_encode_no_slash; [exact Hslash|exact Hbs].
Qed.

Lemma construct_url_roundtrip_witness :
  Url.unquote (drop (length (Url.url_prefix (lit "fr")))
                    (lit "https://fr.wikisource.org/wiki/%C3%89mile/Livre%20I"))
  = Some [201%N; 109%N; 105%N; 108%N; 101%N; 47%N;
          76%N; 105%N; 118%N; 114%N; 101%N; 32%N; 73%N].
Proof.
  apply (construct_url_roundtrip
           [201%N; 109%N; 105%N; 108%N; 101%N; 47%N;
            76%N; 105%N; 118%N; 114%N; 101%N; 32%N; 73%N] (lit "fr")).
  vm_compute. reflexivity.
Defined.

(** C7 as stated fails for a title with a [/], which [quote] leaves as it
    is: the final path segment of the URL of [A/B] decodes to [B]. *)
Lemma construct_url_final_segment_counterexample :
  Url._construct_url (Some (lit "A/B")) (lit "en")
  = Ok (lit "https://en.wikisource.org/wiki/A/B") /\
  Url.unquote (Url.final_segment (lit "https://en.wikisource.org/wiki/A/B"))
  = Some (lit "B") /\
  Url.unquote (Url.final_segment (lit "https://en.wikisource.org/wiki/A/B"))
  <> Some (lit "A/B").
Proof. vm_compute. repeat split. discriminate. Qed.

(** ** The cleaning step *)

Section CleanFacts.
Import Extract Wiki Url Clean.

Lemma utf8_encode_char_scalar c :
  scalar_value c = true -> exists bs, utf8_encode_char c = Ok bs.
Proof.
  unfold scalar_value, utf8_encode_char.
  repeat match goal with
  | |- context [(?a <=? ?b)%N] => destruct (N.leb_spec a b)
  | |- context [(?a <? ?b)%N] => destruct (N.ltb_spec a b)
  end; cbn [andb orb]; intros; try discriminate; try lia; eauto.
Qed.

Lemma quote_scalar s :
  Forall (fun c => scalar_value c = true) s -> exists quoted, quote (Some s) = Ok quoted.
Proof.
  intros H. unfold quote. unfold_result.
  enough (exists bs, utf8_encode s = Ok bs) as [bs ->] by eauto.
  induction H as [|c s Hc _ [rest IH]]; [exists []; reflexivity|].
  destruct (utf8_encode_char_scalar c Hc) as [chunk Hchunk].
  exists (chunk ++ rest). rewrite utf8_encode_cons, Hchunk, IH. reflexivity.
Qed.

Variable parse : str -> result Wikicode.
Variable imatch : char -> char -> bool.
Variable is_visible : str -> bool.
Variable MEDIA_ALIASES CAT_ALIASES : gmap str (list str).

Let cleaned (depth : nat) (raw_content language : str) : result str :=
  _parse_and_clean_wikicode parse imatch is_visible MEDIA_ALIASES CAT_ALIASES
    language depth raw_content.

Let clean_content := _clean_content parse imatch is_visible MEDIA_ALIASES CAT_ALIASES.

(** The only yield of [_clean_content], and when it is reached. *)
Lemma clean_content_yielded depth a language min_text_length :
  match cleaned depth (raw_markup a) language,
        _construct_url (raw_title a) language with
  | Ok text, Ok url =>
      if bool_decide (text = []) || (len text <? min_text_length)
      then yielded (clean_content depth a language min_text_length) = []
      else yielded (clean_content depth a language min_text_length)
           = [(raw_id a, mkCleaned (raw_id a) url (raw_title a) text)]
  | _, _ => yielded (clean_content depth a language min_text_length) = []
  end.
Proof.
  subst cleaned clean_content. unfold _clean_content. destruct a as [i t raw]. simpl.
  destruct (_parse_and_clean_wikicode _ _ _ _ _ _ _ _) as [text|[]]; try reflexivity.
  destruct (_construct_url t language) as [url|e];
    destruct (bool_decide (text = []) || (len text <? min_text_length));
    reflexivity.
Qed.
End CleanFacts.

(** C5. For an article whose title can be encoded, [clean] emits a record
    if and only if the markup is parsed and cleaned without an error and
    the text is non-empty and at least [min_text_length] long; it then
    emits the one complete record, and otherwise nothing. *)
Theorem clean_emits_iff parse imatch is_visible MEDIA_ALIASES CAT_ALIASES
    depth (a : Extract.RawArticle) (language : list N) (min_text_length : Z)
    (t : list N) :
  Extract.raw_title a = Some t ->
  Forall (fun c => Url.scalar_value c = true) t ->
  let emitted :=
    yielded (Clean._clean_content parse imatch is_visible MEDIA_ALIASES
               CAT_ALIASES depth a language min_text_length) in
  let complete text :=
    Wiki._parse_and_clean_wikicode parse imatch is_visible MEDIA_ALIASES
      CAT_ALIASES language depth (Extract.raw_markup a) = Ok text /\
    text <> [] /\ min_text_length <= len text in
  (exists text url,
     complete text /\
     Url._construct_url (Extract.raw_title a) language = Ok url /\
     emitted = [(Extract.raw_id a,
                 Clean.mkCleaned (Extract.raw_id a) url (Extract.raw_title a) text)])
  \/ ((forall text, ~ complete text) /\ emitted = []).
Proof.
  intros Ht Hscalar emitted complete. subst emitted complete.
  pose proof (clean_content_yielded parse imatch is_visible MEDIA_ALIASES
                CAT_ALIASES depth a language min_text_length) as H.
  cbv beta zeta in H.
  destruct (quote_scalar t Hscalar) as [quoted Hq].
  assert (Hurl : Url._construct_url (Extract.raw_title a) language
                 = Ok (Url.url_prefix language ++ quoted)).
  { rewrite Ht. unfold Url._construct_url. rewrite Hq. reflexivity. }
  rewrite Hurl in H.
  destruct (Wiki._parse_and_clean_wikicode _ _ _ _ _ _ _ _) as [text|e].
  - destruct (bool_decide (text = [])) eqn:Hempty; simpl in H.
    { right. split; [|exact H]. apply bool_decide_eq_true in Hempty.
      intros text' ([= <-] & Hne & _). contradiction. }
    apply bool_decide_eq_false in Hempty.
    destruct (Z.ltb_spec (len text) min_text_length).
    + right. split; [|exact H]. intros text' ([= <-] & _ & Hlen). lia.
    + left. exists text, (Url.url_prefix language ++ quoted).
      repeat split; auto.
  - right. split; [|destruct e; exact H]. intros text' (Hok & _). discriminate.
Qed.

Lemma clean_emits_iff_witness :
  yielded (Clean._clean_content Wiki.parse_plain Str.imatch_ascii (fun _ => true)
             ∅ ∅ 1 (Extract.mkRaw (Some (lit "42")) (Some (lit "Main Page"))
                      (lit "Hello world")) (lit "en") 5)
  = [(Some (lit "42"),
      Clean.mkCleaned (Some (lit "42"))
        (lit "https://en.wikisource.org/wiki/Main%20Page")
        (Some (lit "Main Page")) (lit "Hello world"))].
Proof.
  destruct (clean_emits_iff Wiki.parse_plain Str.imatch_ascii (fun _ => true)
              ∅ ∅ 1 (Extract.mkRaw (Some (lit "42")) (Some (lit "Main Page"))
                       (lit "Hello world")) (lit "en") 5 (lit "Main Page"))
    as [(text & url & (Htext & _) & Hurl & ->)|[Hnone _]].
  - reflexivity.
  - repeat constructor.
  - vm_compute in Htext, Hurl |- *. congruence.
  - exfalso. apply (Hnone (lit "Hello world")). vm_compute.
    repeat split; discriminate.
Defined.

(** C10. A record that [clean] emits carries the id and the title of its
    input unchanged, as key and in its fields; the url and the text are
    what [_construct_url] and the cleaning of the markup return. *)
Theorem clean_keeps_id_and_title parse imatch is_visible MEDIA_ALIASES
    CAT_ALIASES depth (a : Extract.RawArticle) (language : list N)
    (min_text_length : Z) key (record : Clean.CleanedArticle) :
  (key, record) ∈ yielded (Clean._clean_content parse imatch is_visible
                             MEDIA_ALIASES CAT_ALIASES depth a language
                             min_text_length) ->
  key = Extract.raw_id a /\
  Clean.id record = Extract.raw_id a /\
  Clean.title record = Extract.raw_title a /\
  Url._construct_url (Extract.raw_title a) language = Ok (Clean.url record) /\
  Wiki._parse_and_clean_wikicode parse imatch is_visible MEDIA_ALIASES
    CAT_ALIASES language depth (Extract.raw_markup a) = Ok (Clean.text record).
Proof.
  pose proof (clean_content_yielded parse imatch is_visible MEDIA_ALIASES
                CAT_ALIASES depth a language min_text_length) as H.
  cbv beta zeta in H.
  revert H.
  destruct (Wiki._parse_and_clean_wikicode _ _ _ _ _ _ _ _) as [text|e1];
    destruct (Url._construct_url _ _) as [url|e2]; intros H;
    try (rewrite H; intros []%elem_of_nil).
  revert H.
  destruct (bool_decide (text = []) || (len text <? min_text_length));
    intros ->; [intros []%elem_of_nil|].
  intros [= -> ->]%list_elem_of_singleton. repeat split; reflexivity.
Qed.

Lemma clean_keeps_id_and_title_witness :
  Clean.id (Clean.mkCleaned (Some (lit "42"))
              (lit "https://en.wikisource.org/wiki/Main%20Page")
              (Some (lit "Main Page")) (lit "Hello world")) = Some (lit "42").
Proof.
  apply (clean_keeps_id_and_title Wiki.parse_plain Str.imatch_ascii (fun _ => true)
           ∅ ∅ 1 (Extract.mkRaw (Some (lit "42")) (Some (lit "Main Page"))
                    (lit "Hello world")) (lit "en") 5 (Some (lit "42"))).
  vm_compute. left.
Defined.

(** ** Cleaning a text without markup *)

Section PlainTextFacts.
Import Str Wiki.

Lemma lstrip_length p s : (length (lstrip p s) <= length s)%nat.
Proof.
  induction s as [|c s IH]; simpl; [lia|].
  destruct (p c); simpl; lia.
Qed.

Lemma lstrip_same_length p s :
  length (lstrip p s) = length s -> lstrip p s = s.
Proof.
  destruct s as [|c s]; simpl; [reflexivity|].
  destruct (p c); [|reflexivity].
  pose proof (lstrip_length p s). lia.
Qed.

Lemma rstrip_length p s : (length (rstrip p s) <= length s)%nat.
Proof.
  unfold rstrip. rewrite length_reverse.
  pose proof (lstrip_length p (reverse s)) as H. rewrite length_reverse in H. exact H.
Qed.

Lemma rstrip_same_length p s :
  length (rstrip p s) = length s -> rstrip p s = s.
Proof.
  unfold rstrip. rewrite length_reverse. intros H.
  rewrite lstrip_same_length by (rewrite length_reverse; exact H).
  apply reverse_involutive.
Qed.

(** A text that [strip()] leaves alone has no white space at either end. *)
Lemma strip_fixed s :
  strip s = s -> lstrip isspace s = s /\ rstrip isspace s = s.
Proof.
  unfold strip. intros H.
  pose proof (rstrip_length isspace (lstrip isspace s)) as H1.
  pose proof (lstrip_length isspace s) as H2.
  assert (Hl : lstrip isspace s = s).
  { apply lstrip_same_length. rewrite H in H1. lia. }
  split; [exact Hl|]. rewrite Hl in H. exact H.
Qed.

Lemma lstrip_weaker (p q : N -> bool) s :
  (forall c, q c = true -> p c = true) -> lstrip p s = s -> lstrip q s = s.
Proof.
  intros Hqp H. destruct s as [|c s]; [reflexivity|].
  simpl in *. destruct (q c) eqn:Hq; [|reflexivity].
  rewrite (Hqp c Hq) in H.
  pose proof (lstrip_length p s) as Hlen. rewrite H in Hlen. simpl in Hlen. lia.
Qed.

Lemma newline_isspace c : is_newline c = true -> isspace c = true.
Proof. unfold is_newline. intros ->%N.eqb_eq. reflexivity. Qed.

Lemma strip_newlines_fixed s : strip s = s -> strip_newlines s = s.
Proof.
  intros [Hl Hr]%strip_fixed. unfold strip_newlines.
  rewrite (lstrip_weaker isspace is_newline s newline_isspace Hl).
  unfold rstrip in *.
  assert (Hrev : lstrip isspace (reverse s) = reverse s).
  { rewrite <- Hr at 2. rewrite reverse_involutive. reflexivity. }
  rewrite (lstrip_weaker isspace is_newline _ newline_isspace Hrev).
  apply reverse_involutive.
Qed.

Lemma collapse_fixed s : has_3_newlines s = false -> collapse s = s.
Proof. unfold collapse. intros H. destruct (length s); simpl; [|rewrite H]; reflexivity. Qed.

(** A round of the loop shortens a text that has three newlines in a
    row, so the rounds that [collapse] allows end the loop. *)
Lemma has_3_newlines_eq c1 c2 c3 s :
  has_3_newlines (c1 :: c2 :: c3 :: s) =
  is_newline c1 && is_newline c2 && is_newline c3 || has_3_newlines (c2 :: c3 :: s).
Proof. reflexivity. Qed.

Lemma replace_3_newlines_eq c1 c2 c3 s :
  replace_3_newlines (c1 :: c2 :: c3 :: s) =
  if is_newline c1 && is_newline c2 && is_newline c3
  then 10%N :: 10%N :: replace_3_newlines s
  else c1 :: replace_3_newlines (c2 :: c3 :: s).
Proof. reflexivity. Qed.

Lemma replace_3_newlines_length s :
  (length (replace_3_newlines s) <= length s)%nat /\
  (has_3_newlines s = true ->
   (length (replace_3_newlines s) < length s)%nat).
Proof.
  assert (H : forall n s, (length s <= n)%nat ->
            (length (replace_3_newlines s) <= length s)%nat /\
            (has_3_newlines s = true ->
             (length (replace_3_newlines s) < length s)%nat));
    [|apply (H (length s)); lia].
  clear s. induction n as [|n IH]; intros s Hle.
  - destruct s; [|simpl in Hle; lia]. simpl. split; [lia|discriminate].
  - destruct s as [|c1 [|c2 [|c3 s'']]];
      try (simpl; split; [lia|discriminate]).
    rewrite has_3_newlines_eq, replace_3_newlines_eq.
    cbn [length] in Hle.
    destruct (is_newline c1 && is_newline c2 && is_newline c3); cbn [orb length].
    + destruct (IH s'' ltac:(lia)) as [H _]. split; intros; lia.
    + destruct (IH (c2 :: c3 :: s'') ltac:(cbn [length]; lia)) as [H1 H2].
      cbn [length] in H1, H2. split; [lia|]. intros H3. specialize (H2 H3). lia.
Qed.

Lemma collapse_rounds_done rounds s :
  (length s <= rounds)%nat -> has_3_newlines (collapse_rounds rounds s) = false.
Proof.
  revert s. induction rounds as [|rounds IH]; intros s Hle.
  - destruct s; [reflexivity|simpl in Hle; lia].
  - simpl. destruct (has_3_newlines s) eqn:H3; [|exact H3].
    apply IH. pose proof (proj2 (replace_3_newlines_length s) H3). lia.
Qed.

Lemma collapse_done s : has_3_newlines (collapse s) = false.
Proof. apply collapse_rounds_done. lia. Qed.

(** The stripped text of a single [Text] node. *)
Lemma strip_code_text is_visible s :
  strip_code is_visible [Text s] = collapse (strip_newlines s).
Proof.
  unfold strip_code, finish_strip. simpl.
  destruct s as [|c s]; simpl; [reflexivity|].
  rewrite app_nil_r. reflexivity.
Qed.

Variable parse : list N -> result Wikicode.
Variable imatch : N -> N -> bool.
Variable is_visible : list N -> bool.
Variable MEDIA_ALIASES CAT_ALIASES : gmap (list N) (list (list N)).
Variable language : list N.

Lemma visit_wikilinks_text depth attached s :
  visit_wikilinks parse imatch is_visible MEDIA_ALIASES CAT_ALIASES language
    depth attached (Text s) = Ok (Some (Text s)).
Proof. destruct depth; reflexivity. Qed.

(** Cleaning a tree that is one [Text] node: no link and no tag is there
    to filter; the text is collapsed, stripped and freed of magic words. *)
Lemma clean_wikicode_text depth s :
  clean_wikicode parse imatch is_visible MEDIA_ALIASES CAT_ALIASES language
    depth [Text s]
  = Ok (sub_magic (strip (collapse (strip_newlines s)))).
Proof.
  unfold clean_wikicode, get_sections. simpl. unfold clean_section, walk_top.
  simpl. rewrite visit_wikilinks_text. simpl. unfold section_text.
  rewrite strip_code_text. reflexivity.
Qed.
End PlainTextFacts.

(** C8, as the code has it: re-cleaning a text that parses as plain text
    collapses its runs of newlines, strips it and removes magic words once
    more; it gives the same text when the text has no white space at its
    ends, no three newlines in a row and no magic word. *)
Theorem reclean_plain_text parse imatch is_visible MEDIA_ALIASES CAT_ALIASES
    language depth (cleaned : list N) :
  parse cleaned = Ok [Wiki.Text cleaned] ->
  let reclean :=
    Wiki._parse_and_clean_wikicode parse imatch is_visible MEDIA_ALIASES
      CAT_ALIASES language depth in
  reclean cleaned
  = Ok (Str.sub_magic (Str.strip (Str.collapse (Str.strip_newlines cleaned)))) /\
  (Str.strip cleaned = cleaned -> Str.has_3_newlines cleaned = false ->
   Str.sub_magic cleaned = cleaned -> reclean cleaned = Ok cleaned).
Proof.
  intros Hparse reclean. subst reclean.
  unfold Wiki._parse_and_clean_wikicode. rewrite Hparse. unfold_result.
  rewrite clean_wikicode_text. split; [reflexivity|].
  intros Hstrip Hnl Hmagic.
  rewrite strip_newlines_fixed, collapse_fixed, Hstrip, Hmagic by assumption.
  reflexivity.
Qed.

Lemma reclean_plain_text_witness :
  Wiki._parse_and_clean_wikicode Wiki.parse_plain Str.imatch_ascii (fun _ => true)
    ∅ ∅ (lit "en") 1 (lit "Hello Animals world")
  = Ok (lit "Hello Animals world").
Proof.
  apply (reclean_plain_text Wiki.parse_plain Str.imatch_ascii (fun _ => true)
           ∅ ∅ (lit "en") 1 (lit "Hello Animals world")); reflexivity.
Defined.

(** C8 as stated fails: the section text is stripped before the magic
    words are removed, so a page that starts with [__NOTOC__] and a line
    break cleans to a text that starts with the line break, and cleaning
    that text removes it. *)
Lemma clean_not_idempotent_counterexample :
  let clean :=
    Wiki._parse_and_clean_wikicode Wiki.parse_plain Str.imatch_ascii
      (fun _ => true) ∅ ∅ (lit "en") 1 in
  clean (lit "__NOTOC__" ++ [10%N] ++ lit "Intro") = Ok ([10%N] ++ lit "Intro") /\
  clean ([10%N] ++ lit "Intro") = Ok (lit "Intro") /\
  clean ([10%N] ++ lit "Intro") <> Ok ([10%N] ++ lit "Intro").
Proof. vm_compute. repeat split. discriminate. Qed.

(** ** Category links *)

Section PrefixFacts.
Import Str.

Variable imatch : N -> N -> bool.





End PrefixFacts.

Section CategoryLinks.
Import Str Wiki.

Variable parse : list N -> result Wikicode.
Variable imatch : N -> N -> bool.
Variable is_visible : list N -> bool.
Variable MEDIA_ALIASES CAT_ALIASES : gmap (list N) (list (list N)).
Variable language : list N.

End CategoryLinks.



(** ** Media links *)

Section TraverseFacts.
Context {A B : Type} (f : A -> result B).

Lemma traverse_app xs ys :
  traverse f (xs ++ ys) =
  match traverse f xs with
  | Ok vs =>
      match traverse f ys with
      | Ok ws => Ok (vs ++ ws)
      | Raise e => Raise e
      end
  | Raise e => Raise e
  end.
Proof.
  induction xs as [|x xs IH]; simpl; unfold_result.
  - destruct (traverse f ys); reflexivity.
  - destruct (f x); [|reflexivity]. rewrite IH.
    destruct (traverse f xs); [|reflexivity].
    destruct (traverse f ys); reflexivity.
Qed.

Lemma traverse_cons x xs :
  traverse f (x :: xs) =
  match f x with
  | Ok v =>
      match traverse f xs with
      | Ok vs => Ok (v :: vs)
      | Raise e => Raise e
      end
  | Raise e => Raise e
  end.
Proof. simpl. unfold_result. destruct (f x); reflexivity. Qed.

(** Replacing one element by another with the same result. *)
Lemma traverse_replace xs x x' ys out :
  (forall v, f x = Ok v -> f x' = Ok v) ->
  traverse f (xs ++ x :: ys) = Ok out -> traverse f (xs ++ x' :: ys) = Ok out.
Proof.
  intros Hx. rewrite !traverse_app, !traverse_cons.
  destruct (traverse f xs); [|discriminate].
  destruct (f x) as [v|] eqn:Hv; [|discriminate].
  rewrite (Hx v eq_refl). auto.
Qed.
End TraverseFacts.

Section SectionFacts.
Import Wiki.

Lemma get_sections_cons n nodes :
  get_sections (n :: nodes) =
  match get_sections nodes with
  | lead :: sections =>
      if is_heading n then [] :: (n :: lead) :: sections
      else (n :: lead) :: sections
  | [] => []
  end.
Proof.
  unfold get_sections. simpl. destruct (split_sections nodes) as [lead sections].
  destruct (is_heading n); reflexivity.
Qed.

(** A node that is no heading lies in one section, and the other nodes
    are split into sections in the same way without it. *)
Lemma get_sections_insert pre n post :
  is_heading n = false ->
  exists before a b after,
    get_sections (pre ++ n :: post) = before ++ (a ++ n :: b) :: after /\
    get_sections (pre ++ post) = before ++ (a ++ b) :: after.
Proof.
  intros Hn. induction pre as [|m pre IH]; simpl app.
  - rewrite get_sections_cons, Hn. unfold get_sections.
    destruct (split_sections post) as [lead sections].
    exists [], [], lead, sections. split; reflexivity.
  - destruct IH as (before & a & b & after & H1 & H2).
    rewrite !get_sections_cons, H1, H2.
    destruct before as [|s before]; simpl app; destruct (is_heading m).
    + exists [[]], (m :: a), b, after. split; reflexivity.
    + exists [], (m :: a), b, after. split; reflexivity.
    + exists ([] :: (m :: s) :: before), a, b, after. split; reflexivity.
    + exists ((m :: s) :: before), a, b, after. split; reflexivity.
Qed.

(** A top-level node that its visit removes leaves the walk of the other
    top-level nodes as it is. *)
Lemma walk_top_removed {A} (visit : A -> result (option A)) a n b out :
  (forall r, visit n = Ok r -> r = None) ->
  walk_top visit (a ++ n :: b) = Ok out -> walk_top visit (a ++ b) = Ok out.
Proof.
  intros Hn. unfold walk_top. rewrite !traverse_app, traverse_cons.
  destruct (traverse visit a) as [va|]; [|discriminate].
  destruct (visit n) as [r|] eqn:Hr; [|discriminate].
  rewrite (Hn r eq_refl).
  destruct (traverse visit b) as [vb|]; [|discriminate].
  intros [= <-]. rewrite !omap_app. reflexivity.
Qed.
End SectionFacts.

Section MediaLinks.
Import Str Wiki.

Variable parse : list N -> result Wikicode.
Variable imatch : N -> N -> bool.
Variable is_visible : list N -> bool.
Variable MEDIA_ALIASES CAT_ALIASES : gmap (list N) (list (list N)).
Variable language : list N.


End MediaLinks.



(** ** The bound on re-parsing *)

Section NodeInduction.
Import Wiki.

Variable P : Node -> Prop.
Hypothesis P_Text : forall value, P (Text value).
Hypothesis P_Heading :
  forall title level, Forall P title -> P (Heading title level).
Hypothesis P_Wikilink :
  forall title text,
    Forall P title -> Forall_option P text -> P (Wikilink title text).
Hypothesis P_Tag :
  forall tag wiki_markup attrs contents closing_tag render,
    Forall P tag -> Forall (Forall P) attrs ->
    Forall_option P contents -> Forall_option P closing_tag ->
    P (Tag tag wiki_markup attrs contents closing_tag render).
Hypothesis P_Other :
  forall parts render stripper,
    Forall (Forall P) parts -> P (Other parts render stripper).

(** Induction over a node and the nodes in its parts. *)
Lemma Node_nested_ind : forall n, P n.
Proof.
  fix IH 1.
  intros [value|title level|title text|tag wiki_markup attrs contents closing_tag render
          |parts render stripper].
  - apply P_Text.
  - apply P_Heading. induction title; constructor; [apply IH|assumption].
  - apply P_Wikilink.
    + induction title; constructor; [apply IH|assumption].
    + destruct text as [code|]; [|exact I].
      induction code; constructor; [apply IH|assumption].
  - apply P_Tag.
    + induction tag; constructor; [apply IH|assumption].
    + induction attrs as [|code attrs IHattrs]; constructor; [|assumption].
      induction code; constructor; [apply IH|assumption].
    + destruct contents as [code|]; [|exact I].
      induction code; constructor; [apply IH|assumption].
    + destruct closing_tag as [code|]; [|exact I].
      induction code; constructor; [apply IH|assumption].
  - apply P_Other.
    induction parts as [|code parts IHparts]; constructor; [|assumption].
    induction code; constructor; [apply IH|assumption].
Qed.
End NodeInduction.

Section WalkFacts.
Import Wiki.
Context {A : Type}.

(** A walk with a visit that returns what another visit returns, where
    that one returns, returns what the walk with the other returns. *)
Lemma walk_live_extends (v1 v2 : A -> result (option A)) code out :
  Forall (fun n => forall r, v1 n = Ok r -> v2 n = Ok r) code ->
  walk_live v1 code = Ok out -> walk_live v2 code = Ok out.
Proof.
  intros Hcode. revert out.
  enough (H : (forall out, walk_live v1 code = Ok out -> walk_live v2 code = Ok out) /\
              (forall out, walk_live v1 (tail code) = Ok out ->
                           walk_live v2 (tail code) = Ok out)) by apply H.
  induction Hcode as [|n rest Hn _ [IH1 IH2]]; [split; auto|].
  split; [|exact IH1]. intros out. simpl. unfold_result.
  destruct (v1 n) as [r|]; [|discriminate]. rewrite (Hn r eq_refl).
  destruct r as [n'|].
  - destruct (walk_live v1 rest) as [rest'|]; [|discriminate].
    rewrite (IH1 rest' eq_refl). auto.
  - destruct rest as [|passed rest']; [auto|]. simpl in IH2.
    destruct (walk_live v1 rest') as [rest''|]; [|discriminate].
    rewrite (IH2 rest'' eq_refl). auto.
Qed.

Lemma walk_option_extends (w1 w2 : list A -> result (list A)) part out :
  (forall code r, part = Some code -> w1 code = Ok r -> w2 code = Ok r) ->
  walk_option w1 part = Ok out -> walk_option w2 part = Ok out.
Proof.
  intros H. destruct part as [code|]; simpl; [|auto]. unfold_result.
  pose proof (H code) as Hcode.
  destruct (w1 code) as [r|]; [|discriminate].
  rewrite (Hcode r eq_refl eq_refl). auto.
Qed.

Lemma walk_parts_extends (w1 w2 : list A -> result (list A)) parts out :
  Forall (fun code => forall r, w1 code = Ok r -> w2 code = Ok r) parts ->
  walk_parts w1 parts = Ok out -> walk_parts w2 parts = Ok out.
Proof.
  unfold walk_parts. intros H. revert out.
  induction H as [|code parts Hcode _ IH]; intros out; [auto|].
  rewrite !traverse_cons.
  destruct (w1 code) as [r|]; [|discriminate]. rewrite (Hcode r eq_refl).
  destruct (traverse w1 parts) as [rs|]; [|discriminate].
  rewrite (IH rs eq_refl). auto.
Qed.
End WalkFacts.

Section DepthFacts.
Import Wiki.

Variable parse : list N -> result Wikicode.
Variable imatch : N -> N -> bool.
Variable is_visible : list N -> bool.
Variable MEDIA_ALIASES CAT_ALIASES : gmap (list N) (list (list N)).
Variable language : list N.

Local Abbreviation visit :=
  (visit_wikilinks parse imatch is_visible MEDIA_ALIASES CAT_ALIASES language).

Lemma visit_wikilinks_Heading depth attached title level :
  visit depth attached (Heading title level) =
  (title' ← walk_live (visit depth attached) title;
   Ok (Some (Heading title' level))).
Proof. destruct depth; reflexivity. Qed.

Lemma visit_wikilinks_Wikilink depth attached title text :
  visit depth attached (Wikilink title text) =
  if rm_wikilink imatch MEDIA_ALIASES language title then
    _ ← walk_live (visit depth false) title;
    _ ← walk_option (walk_live (visit depth false)) text;
    Ok (if attached then None else Some (Wikilink title text))
  else if is_category imatch CAT_ALIASES language title then
    new_text ← parse (clean_wikilink_text imatch is_visible CAT_ALIASES language
                        title text);
    title' ← walk_live (visit depth attached) title;
    match depth with
    | O => Raise DepthExceeded
    | S depth' =>
        text' ← walk_live (visit depth' attached) new_text;
        Ok (Some (Wikilink title' (Some text')))
    end
  else
    title' ← walk_live (visit depth attached) title;
    text' ← walk_option (walk_live (visit depth attached)) text;
    Ok (Some (Wikilink title' text')).
Proof. destruct depth; reflexivity. Qed.

Lemma visit_wikilinks_Tag depth attached tag wiki_markup attrs contents
    closing_tag render :
  visit depth attached (Tag tag wiki_markup attrs contents closing_tag render) =
  (tag' ← (if wiki_markup then Ok tag else walk_live (visit depth attached) tag);
   attrs' ← walk_parts (walk_live (visit depth attached)) attrs;
   contents' ← walk_option (walk_live (visit depth attached)) contents;
   closing_tag' ← walk_option (walk_live (visit depth attached)) closing_tag;
   Ok (Some (Tag tag' wiki_markup attrs' contents' closing_tag' render))).
Proof. destruct depth; reflexivity. Qed.

Lemma visit_wikilinks_Other depth attached parts render stripper :
  visit depth attached (Other parts render stripper) =
  (parts' ← walk_parts (walk_live (visit depth attached)) parts;
   Ok (Some (Other parts' render stripper))).
Proof. destruct depth; reflexivity. Qed.

Local Abbreviation deeper depth :=
  (fun n => forall attached r,
     visit depth attached n = Ok r -> visit (S depth) attached n = Ok r).

Lemma walk_code_deeper depth code :
  Forall (deeper depth) code ->
  forall attached out,
    walk_live (visit depth attached) code = Ok out ->
    walk_live (visit (S depth) attached) code = Ok out.
Proof.
  intros H attached out. apply walk_live_extends.
  eapply Forall_impl; [exact H|]. intros n Hn. apply Hn.
Qed.

Lemma walk_option_deeper depth part :
  Forall_option (deeper depth) part ->
  forall attached out,
    walk_option (walk_live (visit depth attached)) part = Ok out ->
    walk_option (walk_live (visit (S depth) attached)) part = Ok out.
Proof.
  intros H attached out. apply walk_option_extends.
  intros code r ->. apply walk_code_deeper, H.
Qed.

Lemma walk_parts_deeper depth parts :
  Forall (Forall (deeper depth)) parts ->
  forall attached out,
    walk_parts (walk_live (visit depth attached)) parts = Ok out ->
    walk_parts (walk_live (visit (S depth) attached)) parts = Ok out.
Proof.
  intros H attached out. apply walk_parts_extends.
  eapply Forall_impl; [exact H|]. intros code Hcode r.
  apply walk_code_deeper, Hcode.
Qed.

(** One walk of the goal, taken from the smaller bound to the larger. *)
Ltac deeper_walk :=
  match goal with
  | |- match ?w with Ok _ => _ | Raise _ => _ end = Ok _ -> _ =>
      let E := fresh "E" in
      destruct w eqn:E; [|discriminate];
      first [ apply walk_code_deeper in E; [|assumption]
            | apply walk_option_deeper in E; [|assumption]
            | apply walk_parts_deeper in E; [|assumption] ];
      rewrite E
  end.

(** The bound does not shape the result: what a walk returns within a
    bound, it returns within every larger bound. *)
Lemma visit_wikilinks_deeper depth :
  forall n attached r,
    visit depth attached n = Ok r -> visit (S depth) attached n = Ok r.
Proof.
  induction depth as [|depth' IHdepth].
  all: intros n; induction n as [value|title level Htitle|title text Htitle Htext
         |tag wiki_markup attrs contents closing_tag render Htag Hattrs Hcontents
          Hclosing|parts render stripper Hparts] using Node_nested_ind;
    intros attached r.
  all: try (destruct depth'; simpl; congruence).
  all: try (simpl; congruence).
  all: rewrite ?visit_wikilinks_Heading, ?visit_wikilinks_Wikilink,
         ?visit_wikilinks_Tag, ?visit_wikilinks_Other; unfold_result.
  all: try (destruct wiki_markup).
  all: try (destruct (rm_wikilink imatch MEDIA_ALIASES language title);
            [|destruct (is_category imatch CAT_ALIASES language title);
              [destruct (parse _); [|discriminate]|]]).
  all: repeat deeper_walk; auto.
  - discriminate.
  - destruct (walk_live (visit depth' attached) a) as [text'|] eqn:Htext';
      [|discriminate].
    apply walk_live_extends with (v2 := visit (S depth') attached) in Htext';
      [rewrite Htext'; auto|].
    apply Forall_forall. intros n _. apply IHdepth.
Qed.

Lemma traverse_extends {A B} (f1 f2 : A -> result B) xs out :
  (forall x v, f1 x = Ok v -> f2 x = Ok v) ->
  traverse f1 xs = Ok out -> traverse f2 xs = Ok out.
Proof.
  intros H. revert out. induction xs as [|x xs IH]; intros out; [auto|].
  rewrite !traverse_cons. pose proof (H x) as Hx.
  destruct (f1 x) as [v|]; [|discriminate]. rewrite (Hx v eq_refl).
  destruct (traverse f1 xs) as [vs|]; [|discriminate].
  rewrite (IH vs eq_refl). auto.
Qed.

(** Cleaning with a larger bound returns the same text. *)
Lemma clean_wikicode_deeper depth wikicode out :
  clean_wikicode parse imatch is_visible MEDIA_ALIASES CAT_ALIASES language
    depth wikicode = Ok out ->
  clean_wikicode parse imatch is_visible MEDIA_ALIASES CAT_ALIASES language
    (S depth) wikicode = Ok out.
Proof.
  unfold clean_wikicode. unfold_result.
  destruct (traverse _ (get_sections wikicode)) as [texts|] eqn:Htexts;
    [|discriminate].
  apply traverse_extends
    with (f2 := clean_section parse imatch is_visible MEDIA_ALIASES CAT_ALIASES
                  language (S depth)) in Htexts; [rewrite Htexts; auto|].
  intros section text. unfold clean_section, walk_top. unfold_result.
  destruct (traverse (visit depth true) section) as [visited|] eqn:Hvisited;
    [|discriminate].
  apply traverse_extends with (f2 := visit (S depth) true) in Hvisited;
    [rewrite Hvisited; auto|].
  intros n r. apply visit_wikilinks_deeper.
Qed.

Lemma parse_and_clean_wikicode_deeper depth raw_content out :
  _parse_and_clean_wikicode parse imatch is_visible MEDIA_ALIASES CAT_ALIASES
    language depth raw_content = Ok out ->
  _parse_and_clean_wikicode parse imatch is_visible MEDIA_ALIASES CAT_ALIASES
    language (S depth) raw_content = Ok out.
Proof.
  unfold _parse_and_clean_wikicode. unfold_result.
  destruct (parse raw_content); [|discriminate]. apply clean_wikicode_deeper.
Qed.
End DepthFacts.

(** * Further properties *)

(** ** The index and its ranges *)

Section IndexOutcome.
Import Index.

Variable int : list N -> option Z.

(** What a row with an exception is: an empty row ([IndexError]) or a
    first field that [int] refuses ([ValueError]). *)
Lemma first_field_Raise row e :
  first_field int row = Raise e ->
  e = IndexError /\ row = [] \/
  e = ValueError /\ exists field rest, row = field :: rest /\ int field = None.
Proof.
  destruct row as [|field rest]; simpl.
  - intros [= <-]. left. split; reflexivity.
  - destruct (int field) eqn:Hint; [discriminate|].
    intros [= <-]. right. split; [reflexivity|]. eauto.
Qed.

Lemma traverse_Raise {A B} (f : A -> result B) xs e :
  traverse f xs = Raise e ->
  exists good x bad,
    xs = good ++ x :: bad /\ Forall (fun y => exists v, f y = Ok v) good /\
    f x = Raise e.
Proof.
  induction xs as [|x xs IH]; simpl; [discriminate|]. unfold_result.
  destruct (f x) as [v|e'] eqn:Hx.
  - destruct (traverse f xs) as [vs|e'']; [discriminate|].
    intros [= <-]. destruct (IH eq_refl) as (good & y & bad & -> & Hgood & Hy).
    exists (x :: good), y, bad. split; [reflexivity|]. split; [|exact Hy].
    constructor; eauto.
  - intros [= <-]. exists [], x, xs. split; [reflexivity|]. split; [constructor|exact Hx].
Qed.

(** X1. [_extract_index] returns an index exactly when every row has a
    first field that [int] accepts; otherwise it raises what the first
    row that fails raises: [IndexError] for an empty row, [ValueError] for
    a field that is no integer. *)
Theorem extract_index_outcome rows :
  match _extract_index int rows with
  | Ok _ => Forall (fun row => exists z, first_field int row = Ok z) rows
  | Raise e =>
      exists good row bad,
        rows = good ++ row :: bad /\
        Forall (fun r => exists z, first_field int r = Ok z) good /\
        (e = IndexError /\ row = [] \/
         e = ValueError /\
         exists field rest, row = field :: rest /\ int field = None)
  end.
Proof.
  unfold _extract_index. unfold_result.
  destruct (traverse (first_field int) rows) as [offsets|e] eqn:Hoff.
  - apply traverse_Ok in Hoff.
    induction Hoff; constructor; eauto.
  - apply traverse_Raise in Hoff as (good & row & bad & -> & Hgood & Hrow).
    exists good, row, bad. split; [reflexivity|]. split; [exact Hgood|].
    apply first_field_Raise, Hrow.
Qed.

(** X2. The index depends only on the set of offsets in the file: two
    files whose rows give the same offsets, in any order and with any
    repetition, have the same index. *)
Theorem extract_index_same_offsets rows rows' index index' :
  _extract_index int rows = Ok index ->
  _extract_index int rows' = Ok index' ->
  (forall z, (exists row, row ∈ rows /\ first_field int row = Ok z) <->
             (exists row, row ∈ rows' /\ first_field int row = Ok z)) ->
  index = index'.
Proof.
  unfold _extract_index. unfold_result.
  destruct (traverse (first_field int) rows) as [offsets|] eqn:Hoff; [|discriminate].
  destruct (traverse (first_field int) rows') as [offsets'|] eqn:Hoff';
    [|discriminate].
  intros [= <-] [= <-] Hsame.
  assert (Hset : (list_to_set offsets : gset Z) = list_to_set offsets').
  { apply set_eq. intros z. rewrite !elem_of_list_to_set.
    rewrite (traverse_elem_of _ _ _ z Hoff), (traverse_elem_of _ _ _ z Hoff').
    apply Hsame. }
  rewrite Hset. reflexivity.
Qed.
End IndexOutcome.

Lemma extract_index_same_offsets_witness :
  [5; 20] = [5; 20].
Proof.
  apply (extract_index_same_offsets Index.int_decimal
           [[lit "5"; lit "1"; lit "A"]; [lit "20"; lit "2"; lit "B"];
            [lit "5"; lit "3"; lit "C"]]
           [[lit "20"]; [lit "5"]]).
  - vm_compute. reflexivity.
  - vm_compute. reflexivity.
  - intros z. split; intros (row & Hin & Hrow).
    + repeat (apply elem_of_cons in Hin as [->|Hin]);
        [exists [lit "5"]|exists [lit "20"]|exists [lit "5"]|apply elem_of_nil in Hin as []];
        (split; [|vm_compute in Hrow |- *; exact Hrow]);
        repeat constructor.
    + repeat (apply elem_of_cons in Hin as [->|Hin]);
        [exists [lit "20"; lit "2"; lit "B"]|exists [lit "5"; lit "1"; lit "A"]
        |apply elem_of_nil in Hin as []];
        (split; [|vm_compute in Hrow |- *; exact Hrow]);
        repeat constructor.
Defined.

Section PairwiseFacts.
Import Index.

(** X3. [_pairwise] gives one pair for each element of the index: the
    pair at position [i] holds the element at [i] and the element at
    [i + 1], or [None] where the index ends. *)
Theorem pairwise_lookup {A} (index : list A) (i : nat) :
  _pairwise index !! i = (fun x => (Some x, index !! S i)) <$> index !! i.
Proof.
  revert i. induction index as [|x [|y l] IH]; intros i.
  - reflexivity.
  - destruct i as [|i]; [reflexivity|]. destruct i; reflexivity.
  - rewrite pairwise_cons. destruct i as [|i]; [reflexivity|].
    simpl lookup. rewrite IH. reflexivity.
Qed.
End PairwiseFacts.

Section RangeFacts.
Import Index Extract.



End RangeFacts.


(** ** The pages of a stream *)

Section PageFacts.
Import Extract.

(** X5. The records of a stream come in document order, and an exception
    ends the stream: the pages before the element that raises are
    yielded, the pages behind it are not looked at. *)
Theorem extract_pages_app (before behind : list Element) :
  extract_pages (before ++ behind) =
  match raised (extract_pages before) with
  | Some _ => extract_pages before
  | None =>
      Run (yielded (extract_pages before) ++ yielded (extract_pages behind))
          (raised (extract_pages behind))
  end.
Proof.
  induction before as [|elem before IH]; simpl.
  - destruct (extract_pages behind); reflexivity.
  - destruct (page_step elem) as [[a|]|e]; simpl; [|exact IH|reflexivity].
    rewrite IH. destruct (extract_pages before) as [records [e|]]; reflexivity.
Qed.

(** The fields that the loop reads from a page of the main namespace. *)
Lemma page_step_fields elem a :
  page_step elem = Ok (Some a) ->
  let namespace := drop_last4 (tag elem) in
  exists id_ title,
    find elem (namespace ++ lit "id") = Some id_ /\ text id_ = raw_id a /\
    find elem (namespace ++ lit "title") = Some title /\ text title = raw_title a.
Proof.
  unfold page_step. unfold_result. simpl.
  destruct (endswith (tag elem) (lit "page")); simpl; [|discriminate].
  destruct (text_of (find elem (_ ++ lit "ns"))) as [ns|]; [|discriminate].
  destruct (_ || _); [discriminate|].
  destruct (text_of (find elem (_ ++ lit "id"))) as [id_|] eqn:Hid; [|discriminate].
  destruct (text_of (find elem (_ ++ lit "title"))) as [title|] eqn:Htitle;
    [|discriminate].
  destruct (text_of (find2 elem _ _)) as [[raw|]|]; try discriminate.
  intros [= <-]. simpl.
  apply text_of_Ok in Hid as (i & Hi & Hit).
  apply text_of_Ok in Htitle as (t & Ht & Htt). eauto 10.
Qed.

(** X6. Every record that [_extract_content] yields is read from a page
    element of the stream that lies in the main namespace (the text of its
    [ns] child is ["0"]) and has no [redirect] child; the id, the title
    and the markup of the record are the texts of the [id], [title] and
    [revision/text] elements of that page, in the namespace of its tag. *)
Theorem extract_content_record decompress decode_utf8 iterparse
    (file : list N) (start : Z) (end_ : option Z) (a : RawArticle) :
  a ∈ yielded (_extract_content decompress decode_utf8 iterparse file start end_) ->
  exists elem ns id_ title content,
    elem ∈ stream_elements decompress decode_utf8 iterparse file start end_ /\
    is_page elem /\
    let namespace := drop_last4 (tag elem) in
    find elem (namespace ++ lit "ns") = Some ns /\ text ns = Some (lit "0") /\
    find elem (namespace ++ lit "redirect") = None /\
    find elem (namespace ++ lit "id") = Some id_ /\ text id_ = raw_id a /\
    find elem (namespace ++ lit "title") = Some title /\ text title = raw_title a /\
    find2 elem (namespace ++ lit "revision") (namespace ++ lit "text") = Some content /\
    text content = Some (raw_markup a).
Proof.
  intros Ha. rewrite extract_content_yielded in Ha.
  apply extract_pages_yielded in Ha as (elem & Hin & Hstep).
  destruct (page_step_yield elem a Hstep) as (Hpage & (ns & Hns & Hnst) & Hred & c & Hc & Hct).
  destruct (page_step_fields elem a Hstep) as (id_ & title & Hid & Hidt & Htitle & Htt).
  exists elem, ns, id_, title, c. cbv zeta. repeat split; assumption.
Qed.

(** X7. The loop over the pages raises nothing but [AttributeError], and
    it raises it exactly at a page element that lacks a field the loop
    reads: the [ns] child, or, for a page of the main namespace that is no
    redirect, the [id], [title] or [revision/text] element. *)
Theorem page_step_raises (elem : Element) (e : exn) :
  page_step elem = Raise e <->
  e = AttributeError /\ is_page elem /\
  let namespace := drop_last4 (tag elem) in
  (find elem (namespace ++ lit "ns") = None \/
   (exists ns, find elem (namespace ++ lit "ns") = Some ns /\
               text ns = Some (lit "0")) /\
   find elem (namespace ++ lit "redirect") = None /\
   (find elem (namespace ++ lit "id") = None \/
    find elem (namespace ++ lit "title") = None \/
    find2 elem (namespace ++ lit "revision") (namespace ++ lit "text") = None)).
Proof.
  unfold page_step, is_page. unfold_result. cbv zeta.
  destruct (endswith (tag elem) (lit "page")); simpl;
    [|split; [discriminate|intros (_ & [=] & _)]].
  destruct (find elem (drop_last4 (tag elem) ++ lit "ns")) as [ns|]; simpl;
    [|split; [intros [= <-]; auto|intros (-> & _); reflexivity]].
  destruct (bool_decide (text ns = Some (lit "0"))) eqn:Hmain; simpl.
  2:{ apply bool_decide_eq_false in Hmain. split; [discriminate|].
      intros (_ & _ & [[=]|((ns' & [= <-] & H) & _)]). contradiction. }
  apply bool_decide_eq_true in Hmain.
  destruct (find elem (drop_last4 (tag elem) ++ lit "redirect")) as [r|]; simpl.
  { split; [discriminate|]. intros (_ & _ & [[=]|(_ & [=] & _)]). }
  destruct (find elem (drop_last4 (tag elem) ++ lit "id")) as [i|]; simpl;
    [|split; [intros [= <-]; eauto 10|intros (-> & _); reflexivity]].
  destruct (find elem (drop_last4 (tag elem) ++ lit "title")) as [t|]; simpl;
    [|split; [intros [= <-]; eauto 10|intros (-> & _); reflexivity]].
  destruct (find2 elem _ _) as [c|]; simpl;
    [|split; [intros [= <-]; eauto 10|intros (-> & _); reflexivity]].
  split.
  - destruct (text c); discriminate.
  - intros (_ & _ & [[=]|(_ & _ & [[=]|[[=]|[=]]])]).
Qed.
End PageFacts.

Lemma extract_content_record_witness :
  exists elem : Extract.Element,
    Extract.is_page elem /\
    Extract.find elem (Extract.drop_last4 (Extract.tag elem) ++ lit "redirect") = None.
Proof.
  destruct (extract_content_record Ok Ok
              (fun _ => Run [Extract.sample_page "0" true (Some (lit "#REDIRECT [[B]]"));
                             Extract.sample_page "0" false (Some (lit "Hello"))] None)
              [] 0 None
              (Extract.mkRaw (Some (lit "42")) (Some (lit "Main Page")) (lit "Hello")))
    as (elem & ns & id_ & title & content & _ & Hpage & _ & _ & Hred & _).
  - vm_compute. left.
  - exists elem. split; assumption.
Defined.

(** ** The records of the cleaning step *)

Section ContentFacts.
Import Extract Wiki Url Clean.

Variable parse : list N -> result Wikicode.
Variable imatch : N -> N -> bool.
Variable is_visible : list N -> bool.
Variable MEDIA_ALIASES CAT_ALIASES : gmap (list N) (list (list N)).

Local Abbreviation clean_content :=
  (_clean_content parse imatch is_visible MEDIA_ALIASES CAT_ALIASES).
Local Abbreviation cleaned depth a language :=
  (_parse_and_clean_wikicode parse imatch is_visible MEDIA_ALIASES CAT_ALIASES
     language depth (raw_markup a)).

(** The three ways in which [_clean_content] ends. *)
Lemma clean_content_cases depth a language min_text_length :
  let r := clean_content depth a language min_text_length in
  (r = Run [] None /\
   (cleaned depth a language = Raise ParserError \/
    exists text, cleaned depth a language = Ok text /\
                 (text = [] \/ len text < min_text_length))) \/
  (exists e, r = Run [] (Some e) /\
             (cleaned depth a language = Raise e /\ e <> ParserError \/
              exists text, cleaned depth a language = Ok text /\ text <> [] /\
                           min_text_length <= len text /\
                           _construct_url (raw_title a) language = Raise e)) \/
  (exists text url,
     r = Run [(raw_id a, mkCleaned (raw_id a) url (raw_title a) text)] None /\
     cleaned depth a language = Ok text /\ text <> [] /\
     min_text_length <= len text /\
     _construct_url (raw_title a) language = Ok url).
Proof.
  unfold _clean_content. destruct a as [i t raw]. simpl.
  destruct (_parse_and_clean_wikicode _ _ _ _ _ _ _ _) as [text|e].
  - destruct (bool_decide (text = [])) eqn:Hempty; simpl.
    { apply bool_decide_eq_true in Hempty. left. eauto 10. }
    apply bool_decide_eq_false in Hempty.
    destruct (Z.ltb_spec (len text) min_text_length); [left; eauto 10|].
    destruct (_construct_url t language) as [url|e]; right; [right|left]; eauto 15.
  - destruct e; try (right; left; eexists; split; [reflexivity|left; split;
      [reflexivity|discriminate]]).
    left. auto.
Qed.

(** X8. [_clean_content] yields at most one record, and an exception
    never follows a record: the generator ends after its only yield. *)
Theorem clean_content_single depth a language min_text_length :
  let r := clean_content depth a language min_text_length in
  yielded r = [] \/ exists record, yielded r = [record] /\ raised r = None.
Proof.
  destruct (clean_content_cases depth a language min_text_length)
    as [[-> _]|[(e & -> & _)|(text & url & -> & _)]]; simpl; eauto.
Qed.

(** X9. Lowering [min_text_length] never loses a record: an article that
    is emitted for one minimum is emitted, with the same record, for every
    smaller minimum. *)
Theorem clean_content_smaller_minimum depth a language m m' record :
  record ∈ yielded (clean_content depth a language m) ->
  m' <= m ->
  clean_content depth a language m' = clean_content depth a language m.
Proof.
  intros Hin Hle. revert Hin.
  unfold _clean_content. destruct a as [i t raw]. simpl.
  destruct (_parse_and_clean_wikicode _ _ _ _ _ _ _ _) as [text|e];
    [|destruct e; intros []%elem_of_nil].
  destruct (bool_decide (text = [])); simpl; [intros []%elem_of_nil|].
  destruct (Z.ltb_spec (len text) m); [intros []%elem_of_nil|].
  destruct (Z.ltb_spec (len text) m'); [lia|]. reflexivity.
Qed.

(** X10. [_clean_content] hides a [ParserError] and nothing else: it
    raises an exception exactly when the cleaning of the markup raises one
    that is no [ParserError], or when the text passes the filter and the
    construction of the URL raises. *)
Theorem clean_content_raises depth a language min_text_length e :
  raised (clean_content depth a language min_text_length) = Some e <->
  cleaned depth a language = Raise e /\ e <> ParserError \/
  exists text, cleaned depth a language = Ok text /\ text <> [] /\
               min_text_length <= len text /\
               _construct_url (raw_title a) language = Raise e.
Proof.
  destruct (clean_content_cases depth a language min_text_length)
    as [[-> H]|[(e' & -> & H)|(text & url & -> & Hok & Hne & Hlen & Hurl)]]; simpl.
  - split; [discriminate|].
    destruct H as [H|(text & H & Hdrop)]; rewrite H.
    + intros [[[= <-] Hne]|(t & [=] & _)]. contradiction.
    + intros [[[=] _]|(t & [= <-] & Hne & Hlen & _)].
      destruct Hdrop; [contradiction|lia].
  - split.
    + intros [= <-]. destruct H as [H|H]; [left|right]; exact H.
    + destruct H as [[H Hne]|(text & H & _ & _ & Hurl)]; rewrite H.
      * intros [[[= <-] _]|(t & [=] & _)]. reflexivity.
      * intros [[[=] _]|(t & [= <-] & _ & _ & Hurl')]. congruence.
  - split; [discriminate|]. rewrite Hok.
    intros [[[=] _]|(t & [= <-] & _ & _ & Hurl')]. congruence.
Qed.
End ContentFacts.

Lemma clean_content_smaller_minimum_witness :
  Clean._clean_content Wiki.parse_plain Str.imatch_ascii (fun _ => true) ∅ ∅ 1
    (Extract.mkRaw (Some (lit "42")) (Some (lit "Main Page")) (lit "Hello world"))
    (lit "en") 0
  = Clean._clean_content Wiki.parse_plain Str.imatch_ascii (fun _ => true) ∅ ∅ 1
      (Extract.mkRaw (Some (lit "42")) (Some (lit "Main Page")) (lit "Hello world"))
      (lit "en") 11.
Proof.
  eapply (clean_content_smaller_minimum Wiki.parse_plain Str.imatch_ascii
            (fun _ => true) ∅ ∅ 1 _ (lit "en") 11 0).
  - vm_compute. left.
  - lia.
Defined.

(** ** The patterns of the cleaner *)

Section PatternFacts.
Import Str Wiki.

(** X11. The substitution of the magic words only deletes: its result is
    the text with some of its characters left out, in the same order. *)
Theorem sub_magic_sublist (s : list N) : sub_magic s `sublist_of` s.
Proof.
  unfold sub_magic. generalize O. induction s as [|c s IH]; intros skip.
  - reflexivity.
  - cbn [sub_magic_from]. destruct skip as [|skip].
    + destruct (match_magic (c :: s)).
      * apply sublist_cons, IH.
      * apply sublist_skip, IH.
    + apply sublist_cons, IH.
Qed.

Lemma match_magic_starts s rest :
  match_magic s = Some rest -> exists s', s = lit "__" ++ s'.
Proof.
  unfold match_magic, match_2_underscores.
  destruct s as [|c1 [|c2 s']]; try discriminate.
  - destruct c1 as [|p]; [discriminate|].
    do 7 (destruct p as [p|p|]; try discriminate).
  - destruct (N.eq_dec c1 95%N) as [->|H1]; [destruct (N.eq_dec c2 95%N) as [->|H2]|].
    + intros _. exists s'. reflexivity.
    + intros H. exfalso. revert H. destruct c2 as [|p]; [discriminate|].
      do 7 (destruct p as [p|p|]; try discriminate). contradiction.
    + intros H. exfalso. revert H. destruct c1 as [|p]; [discriminate|].
      do 7 (destruct p as [p|p|]; try discriminate). contradiction.
Qed.

(** X12. A text in which no two underscores follow each other holds no
    magic word: the substitution returns it as it is. *)
Theorem sub_magic_without_underscores (s : list N) :
  (forall before behind, s <> before ++ lit "__" ++ behind) ->
  sub_magic s = s.
Proof.
  unfold sub_magic. induction s as [|c s IH]; intros Hs; [reflexivity|].
  destruct (match_magic (c :: s)) as [rest|] eqn:Hm.
  - apply match_magic_starts in Hm as [s' Hs']. exfalso. apply (Hs [] s'). exact Hs'.
  - rewrite sub_magic_from_no_match by exact Hm. f_equal. apply IH.
    intros before behind ->. apply (Hs (c :: before) behind). reflexivity.
Qed.

Variable imatch : N -> N -> bool.




Variable MEDIA_ALIASES CAT_ALIASES : gmap (list N) (list (list N)).
Variable language : list N.

End PatternFacts.

Lemma sub_magic_without_underscores_witness :
  Str.sub_magic (lit "snake_case and _x_") = lit "snake_case and _x_".
Proof.
  apply sub_magic_without_underscores.
  intros before behind H.
  assert (Hlen : (length before <= 18)%nat).
  { apply (f_equal length) in H. rewrite length_app in H. simpl in H. lia. }
  do 19 (destruct before as [|? before]; [discriminate H|]; simpl in Hlen;
         try lia; injection H as <- H).
Defined.

(** ** Sections, tags and untouched nodes *)

Section HeadingFacts.
Import Str Wiki.

Lemma get_sections_heading h nodes :
  is_heading h = true ->
  exists section sections,
    get_sections (h :: nodes) = [] :: section :: sections /\
    forall before, get_sections (before ++ h :: nodes)
                   = get_sections before ++ section :: sections.
Proof.
  intros Hh. rewrite get_sections_cons, Hh.
  destruct (get_sections nodes) as [|lead sections] eqn:Hnodes.
  { unfold get_sections in Hnodes. destruct (split_sections nodes). discriminate. }
  exists (h :: lead), sections. split; [reflexivity|].
  induction before as [|n before IH]; simpl app.
  - rewrite get_sections_cons, Hh, Hnodes. reflexivity.
  - rewrite !get_sections_cons, IH.
    destruct (get_sections before) as [|l ls] eqn:Hbefore.
    { unfold get_sections in Hbefore. destruct (split_sections before). discriminate. }
    simpl. destruct (is_heading n); reflexivity.
Qed.

Lemma join_sections_app sep (xs : list (list N)) y ys :
  xs <> [] -> join sep (xs ++ y :: ys) = join sep xs ++ sep ++ join sep (y :: ys).
Proof.
  induction xs as [|x [|x' xs] IH]; intros Hne; [contradiction|reflexivity|].
  change (join sep ((x :: x' :: xs) ++ y :: ys))
    with (x ++ sep ++ join sep ((x' :: xs) ++ y :: ys)).
  rewrite IH by discriminate.
  change (join sep (x :: x' :: xs)) with (x ++ sep ++ join sep (x' :: xs)).
  rewrite <- !app_assoc. reflexivity.
Qed.

Variable parse : list N -> result Wikicode.
Variable imatch : N -> N -> bool.
Variable is_visible : list N -> bool.
Variable MEDIA_ALIASES CAT_ALIASES : gmap (list N) (list (list N)).
Variable language : list N.

Local Abbreviation clean :=
  (clean_wikicode parse imatch is_visible MEDIA_ALIASES CAT_ALIASES language).
Local Abbreviation clean1 :=
  (clean_section parse imatch is_visible MEDIA_ALIASES CAT_ALIASES language).

Lemma clean_section_nil depth : clean1 depth [] = Ok [].
Proof. reflexivity. Qed.

(** X14. The sections are cleaned one by one.  A page that starts with a
    heading has an empty lead section, so its text starts with the blank
    line that joins the sections; and the text of a page is the text of
    what stands before a top-level heading followed by the text of the
    page from that heading on. *)
Theorem clean_wikicode_at_heading depth before h behind text_before text_behind :
  is_heading h = true ->
  clean depth before = Ok text_before ->
  clean depth (h :: behind) = Ok text_behind ->
  clean depth (before ++ h :: behind) = Ok (text_before ++ text_behind) /\
  exists text, text_behind = [10%N; 10%N] ++ text.
Proof.
  intros Hh. unfold clean_wikicode. unfold_result.
  destruct (get_sections_heading h behind Hh) as (section & sections & Hsec & Happ).
  rewrite Happ, Hsec, traverse_app, !traverse_cons, clean_section_nil.
  destruct (traverse (clean1 depth) (get_sections before)) as [texts|] eqn:Htexts;
    [|discriminate].
  destruct (clean1 depth section) as [t|]; [|discriminate].
  destruct (traverse (clean1 depth) sections) as [ts|]; [|discriminate].
  intros [= <-] [= <-].
  assert (Hne : texts <> []).
  { intros ->. apply traverse_Ok, Forall2_length in Htexts.
    unfold get_sections in Htexts. destruct (split_sections before). discriminate. }
  split; [|exists (join [10%N; 10%N] (t :: ts)); reflexivity].
  rewrite join_sections_app by exact Hne. reflexivity.
Qed.
End HeadingFacts.

Lemma clean_wikicode_at_heading_witness :
  Wiki.clean_wikicode Wiki.parse_plain Str.imatch_ascii (fun _ => true) ∅ ∅
    (lit "en") 0
    ([Wiki.Text (lit "Lead")] ++
     Wiki.Heading [Wiki.Text (lit "History")] 2 :: [Wiki.Text (lit " Born in 1900.")])
  = Ok (lit "Lead" ++ [10%N; 10%N] ++ lit "History Born in 1900.").
Proof.
  apply (clean_wikicode_at_heading Wiki.parse_plain Str.imatch_ascii (fun _ => true)
           ∅ ∅ (lit "en") 0 [Wiki.Text (lit "Lead")]
           (Wiki.Heading [Wiki.Text (lit "History")] 2)
           [Wiki.Text (lit " Born in 1900.")]); vm_compute; reflexivity.
Defined.

Section TagFacts.
Import Str Wiki.

Lemma walk_top_split {A} (visit : A -> result (option A)) a n b out :
  walk_top visit (a ++ n :: b) = Ok out ->
  exists a' r b',
    walk_top visit a = Ok a' /\ visit n = Ok r /\ walk_top visit b = Ok b' /\
    out = a' ++ option_list r ++ b'.
Proof.
  unfold walk_top. rewrite traverse_app, traverse_cons.
  destruct (traverse visit a) as [va|]; [|discriminate].
  destruct (visit n) as [r|]; [|discriminate].
  destruct (traverse visit b) as [vb|]; [|discriminate].
  intros [= <-]. exists (omap id va), r, (omap id vb).
  repeat split. rewrite omap_app. destruct r; reflexivity.
Qed.

Lemma walk_top_app {A} (visit : A -> result (option A)) a b a' b' :
  walk_top visit a = Ok a' -> walk_top visit b = Ok b' ->
  walk_top visit (a ++ b) = Ok (a' ++ b').
Proof.
  unfold walk_top. rewrite traverse_app.
  destruct (traverse visit a) as [va|]; [|discriminate].
  destruct (traverse visit b) as [vb|]; [|discriminate].
  intros [= <-] [= <-]. rewrite omap_app. reflexivity.
Qed.

Variable parse : list N -> result Wikicode.
Variable imatch : N -> N -> bool.
Variable is_visible : list N -> bool.
Variable MEDIA_ALIASES CAT_ALIASES : gmap (list N) (list (list N)).
Variable language : list N.

Local Abbreviation visit :=
  (visit_wikilinks parse imatch is_visible MEDIA_ALIASES CAT_ALIASES language).
Local Abbreviation clean :=
  (clean_wikicode parse imatch is_visible MEDIA_ALIASES CAT_ALIASES language).

(** The loop over the links keeps a tag and its name of plain text. *)
Lemma visit_wikilinks_named_tag depth attached name wiki_markup attrs contents
    closing_tag render r :
  visit depth attached
    (Tag [Text name] wiki_markup attrs contents closing_tag render) = Ok r ->
  exists attrs' contents' closing_tag',
    r = Some (Tag [Text name] wiki_markup attrs' contents' closing_tag' render).
Proof.
  rewrite visit_wikilinks_Tag. unfold_result.
  assert (Htag : (if wiki_markup then Ok [Text name]
                  else walk_live (visit depth attached) [Text name])
                 = Ok [Text name]).
  { destruct wiki_markup; [reflexivity|]. simpl.
    rewrite visit_wikilinks_text. reflexivity. }
  rewrite Htag.
  destruct (walk_parts _ attrs) as [attrs'|]; [|discriminate].
  destruct (walk_option _ contents) as [contents'|]; [|discriminate].
  destruct (walk_option _ closing_tag) as [closing_tag'|]; [|discriminate].
  intros [= <-]. eauto.
Qed.

(** X15. A [ref] or [table] tag that is a top-level node of its section
    is removed with everything in it: the cleaned text is the text of the
    page without that tag, so that a footnote inside a sentence leaves
    the sentence around it. *)
Theorem ref_tag_removed depth pre name wiki_markup attrs contents closing_tag
    render post out :
  name = lit "ref" \/ name = lit "table" ->
  clean depth
    (pre ++ Tag [Text name] wiki_markup attrs contents closing_tag render :: post)
  = Ok out ->
  clean depth (pre ++ post) = Ok out.
Proof.
  intros Hname. unfold clean_wikicode.
  set (tag := Tag [Text name] wiki_markup attrs contents closing_tag render).
  destruct (get_sections_insert pre tag post eq_refl)
    as (before & a & b & after & -> & ->).
  unfold_result.
  set (clean1 := clean_section parse imatch is_visible MEDIA_ALIASES CAT_ALIASES
                   language depth).
  destruct (traverse clean1 (before ++ (a ++ tag :: b) :: after))
    as [texts|] eqn:Htexts; [|discriminate].
  intros [= <-].
  erewrite traverse_replace; [reflexivity| |exact Htexts].
  intros section_out. subst clean1. unfold clean_section. unfold_result.
  destruct (walk_top _ (a ++ tag :: b)) as [section|] eqn:Hwalk; [|discriminate].
  apply walk_top_split in Hwalk as (a' & r & b' & Ha & Hr & Hb & ->).
  apply visit_wikilinks_named_tag in Hr as (attrs' & contents' & closing' & ->).
  rewrite (walk_top_app _ _ _ _ _ Ha Hb). simpl option_list.
  match goal with
  | |- context [walk_top visit_tags ?l] =>
      destruct (walk_top visit_tags l) as [section|] eqn:Htags; [|discriminate]
  end.
  apply walk_top_removed in Htags.
  - simpl in Htags. rewrite Htags. auto.
  - intros r. simpl.
    assert (Hrm : rm_tag [Text name] = true)
      by (destruct Hname as [->| ->]; reflexivity).
    rewrite Hrm. intros [= <-]. reflexivity.
Qed.
End TagFacts.

Lemma ref_tag_removed_witness :
  Wiki.clean_wikicode Wiki.parse_plain Str.imatch_ascii (fun _ => true) ∅ ∅
    (lit "en") 0
    ([Wiki.Text (lit "The sky is blue")] ++ [Wiki.Text (lit " at noon.")])
  = Ok (lit "The sky is blue at noon.").
Proof.
  apply (ref_tag_removed Wiki.parse_plain Str.imatch_ascii (fun _ => true) ∅ ∅
           (lit "en") 0 [Wiki.Text (lit "The sky is blue")] (lit "ref") false []
           (Some [Wiki.Text (lit "Smith 2001, p. 4")]) (Some [Wiki.Text (lit "ref")])
           (fun parts => lit "<ref>" ++ mjoin parts ++ lit "</ref>")
           [Wiki.Text (lit " at noon.")]).
  - left. reflexivity.
  - vm_compute. reflexivity.
Defined.

Section KeptFacts.
Import Str Wiki.

Lemma walk_live_same {A} (visit : A -> result (option A)) code :
  Forall (fun n => visit n = Ok (Some n)) code -> walk_live visit code = Ok code.
Proof.
  induction 1 as [|n code Hn _ IH]; [reflexivity|].
  simpl. rewrite Hn. unfold_result. rewrite IH. reflexivity.
Qed.

Lemma walk_parts_same {A} (walk : list A -> result (list A)) parts :
  Forall (fun code => walk code = Ok code) parts -> walk_parts walk parts = Ok parts.
Proof.
  unfold walk_parts. induction 1 as [|code parts Hcode _ IH]; [reflexivity|].
  rewrite traverse_cons, Hcode, IH. reflexivity.
Qed.

Lemma walk_top_same {A} (visit : A -> result (option A)) code :
  Forall (fun n => visit n = Ok (Some n)) code -> walk_top visit code = Ok code.
Proof.
  unfold walk_top. induction 1 as [|n code Hn _ IH]; [reflexivity|].
  rewrite traverse_cons, Hn.
  destruct (traverse visit code) as [visited|]; [|discriminate].
  injection IH as IH. rewrite <- IH. reflexivity.
Qed.

Lemma get_sections_Forall (Q : Node -> Prop) nodes :
  Forall Q nodes -> Forall (Forall Q) (get_sections nodes).
Proof.
  induction 1 as [|n nodes Hn _ IH]; [repeat constructor|].
  rewrite get_sections_cons.
  destruct (get_sections nodes) as [|lead sections]; [constructor|].
  apply Forall_cons in IH as [Hlead Hsections].
  destruct (is_heading n); repeat constructor; assumption.
Qed.

Variable parse : list N -> result Wikicode.
Variable imatch : N -> N -> bool.
Variable is_visible : list N -> bool.
Variable MEDIA_ALIASES CAT_ALIASES : gmap (list N) (list (list N)).
Variable language : list N.

Local Abbreviation visit :=
  (visit_wikilinks parse imatch is_visible MEDIA_ALIASES CAT_ALIASES language).
Local Abbreviation keep := (kept imatch MEDIA_ALIASES CAT_ALIASES language).

(** From the nodes of a list that are kept, and that a visit leaves alone
    when they are kept, to the walk of the list. *)
Lemma kept_code (v : Node -> result (option Node)) code :
  Forall (fun n => keep n = true -> v n = Ok (Some n)) code ->
  forallb keep code = true ->
  walk_live v code = Ok code.
Proof.
  intros Hall Hkept. apply walk_live_same.
  rewrite forallb_forall in Hkept. rewrite Forall_forall in Hall |- *.
  intros n Hn. apply Hall; [exact Hn|]. apply Hkept, list_elem_of_In, Hn.
Qed.

Lemma kept_option (v : Node -> result (option Node)) part :
  Forall_option (fun n => keep n = true -> v n = Ok (Some n)) part ->
  match part with Some code => forallb keep code | None => true end = true ->
  walk_option (walk_live v) part = Ok part.
Proof.
  destruct part as [code|]; simpl; [|reflexivity].
  intros Hall Hkept. rewrite (kept_code v code Hall Hkept). reflexivity.
Qed.

Lemma kept_parts (v : Node -> result (option Node)) parts :
  Forall (Forall (fun n => keep n = true -> v n = Ok (Some n))) parts ->
  forallb (forallb keep) parts = true ->
  walk_parts (walk_live v) parts = Ok parts.
Proof.
  intros Hall Hkept. apply walk_parts_same.
  rewrite forallb_forall in Hkept. rewrite Forall_forall in Hall |- *.
  intros code Hcode. apply kept_code; [apply Hall, Hcode|].
  apply Hkept, list_elem_of_In, Hcode.
Qed.

Lemma visit_wikilinks_kept depth attached n :
  keep n = true -> visit depth attached n = Ok (Some n).
Proof.
  revert attached.
  induction n as [value|title level Htitle|title text Htitle Htext
    |tag wiki_markup attrs contents closing_tag render Htag Hattrs Hcontents
     Hclosing|parts render stripper Hparts] using Node_nested_ind;
    intros attached Hkept; simpl in Hkept.
  - apply visit_wikilinks_text.
  - rewrite visit_wikilinks_Heading.
    rewrite (kept_code (visit depth attached) title); [reflexivity| |exact Hkept].
    eapply Forall_impl; [exact Htitle|]. auto.
  - apply andb_true_iff in Hkept as [Hkept Hktext].
    apply andb_true_iff in Hkept as [Hkept Hktitle].
    apply andb_true_iff in Hkept as [Hrm Hcat].
    apply negb_true_iff in Hrm, Hcat.
    rewrite visit_wikilinks_Wikilink, Hrm, Hcat.
    rewrite (kept_code (visit depth attached) title); [| |exact Hktitle].
    + rewrite (kept_option (visit depth attached) text); [reflexivity| |exact Hktext].
      destruct text; [|exact I]. eapply Forall_impl; [exact Htext|]. auto.
    + eapply Forall_impl; [exact Htitle|]. auto.
  - apply andb_true_iff in Hkept as [Hkept Hkclosing].
    apply andb_true_iff in Hkept as [Hkept Hkcontents].
    apply andb_true_iff in Hkept as [Hkept Hkattrs].
    apply andb_true_iff in Hkept as [_ Hktag].
    rewrite visit_wikilinks_Tag.
    rewrite (kept_code (visit depth attached) tag); [| |exact Hktag].
    2:{ eapply Forall_impl; [exact Htag|]. auto. }
    rewrite (kept_parts (visit depth attached) attrs); [| |exact Hkattrs].
    2:{ eapply Forall_impl; [exact Hattrs|]. intros code Hcode.
        eapply Forall_impl; [exact Hcode|]. auto. }
    rewrite (kept_option (visit depth attached) contents); [| |exact Hkcontents].
    2:{ destruct contents; [|exact I]. eapply Forall_impl; [exact Hcontents|]. auto. }
    rewrite (kept_option (visit depth attached) closing_tag); [| |exact Hkclosing].
    2:{ destruct closing_tag; [|exact I]. eapply Forall_impl; [exact Hclosing|]. auto. }
    destruct wiki_markup; reflexivity.
  - rewrite visit_wikilinks_Other.
    rewrite (kept_parts (visit depth attached) parts); [reflexivity| |exact Hkept].
    eapply Forall_impl; [exact Hparts|]. intros code Hcode.
    eapply Forall_impl; [exact Hcode|]. auto.
Qed.

Lemma visit_tags_kept n : keep n = true -> visit_tags n = Ok (Some n).
Proof.
  induction n as [value|title level Htitle|title text Htitle Htext
    |tag wiki_markup attrs contents closing_tag render Htag Hattrs Hcontents
     Hclosing|parts render stripper Hparts] using Node_nested_ind;
    intros Hkept; simpl in Hkept; cbn [visit_tags].
  - reflexivity.
  - rewrite (kept_code visit_tags title Htitle Hkept). reflexivity.
  - apply andb_true_iff in Hkept as [Hkept Hktext].
    apply andb_true_iff in Hkept as [_ Hktitle].
    rewrite (kept_code visit_tags title Htitle Hktitle).
    rewrite (kept_option visit_tags text Htext Hktext). reflexivity.
  - apply andb_true_iff in Hkept as [Hkept Hkclosing].
    apply andb_true_iff in Hkept as [Hkept Hkcontents].
    apply andb_true_iff in Hkept as [Hkept Hkattrs].
    apply andb_true_iff in Hkept as [Hrm Hktag].
    apply negb_true_iff in Hrm. rewrite Hrm.
    rewrite (kept_code visit_tags tag Htag Hktag).
    rewrite (kept_parts visit_tags attrs Hattrs Hkattrs).
    rewrite (kept_option visit_tags contents Hcontents Hkcontents).
    rewrite (kept_option visit_tags closing_tag Hclosing Hkclosing).
    destruct wiki_markup; reflexivity.
  - rewrite (kept_parts visit_tags parts Hparts Hkept). reflexivity.
Qed.

(** X16. The loops change nothing but media links, category links and
    [ref] and [table] tags: on a page that has none of them, at any
    depth of the tree, cleaning raises nothing, does not call the parser
    again, and returns the stripped texts of the sections, freed of magic
    words and joined by blank lines. *)
Theorem clean_wikicode_kept depth (nodes : Wikicode) :
  Forall (fun n => keep n = true) nodes ->
  clean_wikicode parse imatch is_visible MEDIA_ALIASES CAT_ALIASES language
    depth nodes
  = Ok (join [10%N; 10%N] (section_text is_visible <$> get_sections nodes)).
Proof.
  intros Hkept. unfold clean_wikicode. unfold_result.
  apply (get_sections_Forall (fun n => keep n = true)) in Hkept.
  enough (Htexts : traverse (clean_section parse imatch is_visible MEDIA_ALIASES
                               CAT_ALIASES language depth) (get_sections nodes)
                   = Ok (section_text is_visible <$> get_sections nodes))
    by (rewrite Htexts; reflexivity).
  induction Hkept as [|section sections Hsection _ IH]; [reflexivity|].
  rewrite traverse_cons, IH. unfold clean_section. unfold_result.
  rewrite walk_top_same
    by (eapply Forall_impl; [exact Hsection|]; intros n; apply visit_wikilinks_kept).
  rewrite walk_top_same
    by (eapply Forall_impl; [exact Hsection|]; intros n; apply visit_tags_kept).
  reflexivity.
Qed.
End KeptFacts.

Lemma clean_wikicode_kept_witness :
  Wiki.clean_wikicode Wiki.parse_plain Str.imatch_ascii (fun _ => true) ∅ ∅
    (lit "en") 0
    [Wiki.Text (lit "He moved to ");
     Wiki.Wikilink [Wiki.Text (lit "Paris")] (Some [Wiki.Text (lit "the city")]);
     Wiki.Heading [Wiki.Text (lit "Works")] 2;
     Wiki.Tag [Wiki.Text (lit "i")] true [] (Some [Wiki.Text (lit "Poems")]) None
       (fun parts => lit "''" ++ mjoin parts ++ lit "''")]
  = Ok (lit "He moved to the city" ++ [10%N; 10%N] ++ lit "WorksPoems").
Proof.
  etransitivity; [apply clean_wikicode_kept|vm_compute; reflexivity].
  repeat constructor.
Defined.

(** ** The characters of the URL *)

Section UrlOutcome.
Import Url.

Lemma hex_digit_safe h : (h < 16)%N -> is_safe (hex_digit h) = true.
Proof. intros H. unfold hex_digit, is_safe. N_cases. Qed.

(** X17. The URL is the address of the language's site followed by
    characters that need no escaping: every character behind
    [https://<language>.wikisource.org/wiki/] is a letter, a digit, one of
    [_.-~/], or the [%] of an escape. *)
Theorem construct_url_characters (title : option (list N)) (language url : list N) :
  _construct_url title language = Ok url ->
  exists quoted,
    url = url_prefix language ++ quoted /\
    Forall (fun c => is_safe c = true \/ c = 37%N) quoted.
Proof.
  unfold _construct_url, quote. unfold_result.
  destruct title as [s|]; [|discriminate].
  destruct (utf8_encode s) as [bs|] eqn:Hbs; [|discriminate].
  intros [= <-]. eexists. split; [reflexivity|].
  apply utf8_encode_bytes in Hbs.
  induction Hbs as [|b bs Hb _ IH]; [constructor|].
  unfold quote_from_bytes in *. cbn [mbind list_bind]. apply Forall_app.
  split; [|exact IH]. unfold quote_byte. destruct (is_safe b) eqn:Hs.
  - apply Forall_cons. split; [left; exact Hs|constructor].
  - apply Forall_cons. split; [right; reflexivity|].
    apply Forall_cons. split; [left; apply hex_digit_safe|].
    + apply N.Div0.div_lt_upper_bound. lia.
    + apply Forall_cons. split; [left; apply hex_digit_safe|constructor].
      apply N.mod_lt. discriminate.
Qed.

(** X18. Different titles have different URLs: the URL of a language and
    a title determines the title. *)
Theorem construct_url_injective (title title' : option (list N))
    (language url : list N) :
  _construct_url title language = Ok url ->
  _construct_url title' language = Ok url ->
  title = title'.
Proof.
  unfold _construct_url. unfold_result.
  destruct (quote title) as [quoted|] eqn:Hq; [|discriminate].
  destruct (quote title') as [quoted'|] eqn:Hq'; [|discriminate].
  intros [= <-] [= H%app_inv_head]. subst quoted'.
  destruct title as [s|]; [|discriminate]. destruct title' as [s'|]; [|discriminate].
  apply unquote_quote in Hq, Hq'. congruence.
Qed.

Lemma utf8_encode_char_Ok c bs :
  utf8_encode_char c = Ok bs -> scalar_value c = true.
Proof.
  unfold utf8_encode_char, scalar_value.
  repeat match goal with
  | |- context [(?a <=? ?b)%N] => destruct (N.leb_spec a b)
  | |- context [(?a <? ?b)%N] => destruct (N.ltb_spec a b)
  end; cbn [andb orb]; intros; try discriminate; try lia; reflexivity.
Qed.

Lemma utf8_encode_char_Raise c e :
  utf8_encode_char c = Raise e -> e = UnicodeEncodeError /\ scalar_value c = false.
Proof.
  unfold utf8_encode_char, scalar_value.
  repeat match goal with
  | |- context [(?a <=? ?b)%N] => destruct (N.leb_spec a b)
  | |- context [(?a <? ?b)%N] => destruct (N.ltb_spec a b)
  end; cbn [andb orb]; intros Henc; try discriminate; try lia;
    injection Henc as <-; split; reflexivity.
Qed.

(** X19. [_construct_url] returns a URL exactly for a title that is a
    string of Unicode scalar values.  For the title [None] it raises
    [TypeError]; for a string with a surrogate it raises
    [UnicodeEncodeError]; it raises nothing else. *)
Theorem construct_url_outcome (title : option (list N)) (language : list N) :
  match _construct_url title language with
  | Ok _ => exists s, title = Some s /\ Forall (fun c => scalar_value c = true) s
  | Raise e =>
      title = None /\ e = TypeError \/
      e = UnicodeEncodeError /\
      exists s c, title = Some s /\ c ∈ s /\ scalar_value c = false
  end.
Proof.
  unfold _construct_url, quote, utf8_encode. unfold_result.
  destruct title as [s|]; [|left; split; reflexivity].
  destruct (traverse utf8_encode_char s) as [chunks|e] eqn:Hs.
  - exists s. split; [reflexivity|]. apply traverse_Ok in Hs.
    induction Hs as [|c chunk s chunks Hc _ IH]; constructor; [|exact IH].
    eapply utf8_encode_char_Ok, Hc.
  - right. apply traverse_Raise in Hs as (good & c & bad & -> & _ & Hc).
    apply utf8_encode_char_Raise in Hc as [-> Hc]. split; [reflexivity|].
    exists (good ++ c :: bad), c. split; [reflexivity|]. split; [|exact Hc].
    apply elem_of_app. right. left.
Qed.

(** X20. A title of letters, digits and [_.-~/] stands in the URL as it
    is. *)
Theorem construct_url_verbatim (title language : list N) :
  Forall (fun c => is_safe c = true) title ->
  _construct_url (Some title) language = Ok (url_prefix language ++ title).
Proof.
  intros Hsafe. unfold _construct_url, quote. unfold_result.
  rewrite utf8_encode_ascii.
  - do 2 f_equal. induction Hsafe as [|c s Hc _ IH]; [reflexivity|].
    unfold quote_from_bytes in *. cbn [mbind list_bind]. rewrite IH.
    unfold quote_byte. rewrite Hc. reflexivity.
  - eapply Forall_impl; [exact Hsafe|]. intros c Hc.
    apply is_safe_bound in Hc as [Hc _]. exact Hc.
Qed.
End UrlOutcome.

Lemma construct_url_characters_witness :
  exists quoted,
    lit "https://de.wikisource.org/wiki/Der%20Prozess"
    = Url.url_prefix (lit "de") ++ quoted /\
    Forall (fun c => Url.is_safe c = true \/ c = 37%N) quoted.
Proof.
  apply (construct_url_characters (Some (lit "Der Prozess")) (lit "de")).
  vm_compute. reflexivity.
Defined.

Lemma construct_url_injective_witness :
  Some (lit "Faust/Teil 1") = Some (lit "Faust/Teil 1").
Proof.
  apply (construct_url_injective _ _ (lit "de")
           (lit "https://de.wikisource.org/wiki/Faust/Teil%201")).
  - vm_compute. reflexivity.
  - vm_compute. reflexivity.
Defined.

Lemma construct_url_verbatim_witness :
  Url._construct_url (Some (lit "Moby-Dick/Chapter_1")) (lit "en")
  = Ok (Url.url_prefix (lit "en") ++ lit "Moby-Dick/Chapter_1").
Proof. apply construct_url_verbatim. repeat constructor. Defined.
